(** * core-js-objects: the CSS selector builder and the ticket queue

    A shallow embedding of [src/objects-tasks.js]:
    - [sellTickets], a single pass over an array of bills;
    - [class CssSelectorBuilder], its prototype method [combine] and the
      [cssSelectorBuilder] facade;
    - the object helpers [mergeObjects], [removeProperties],
      [compareObjects] and [isEmptyObject];
    - [makeWord] and [group].

    Builder instances are JavaScript objects that are mutated in place and
    passed by reference ([combine] receives two of them and finalises
    both), so the development has two layers: the methods as state
    transformers on one instance ([Module CssSelectorBuilder]), and a store
    of instances addressed by location on which the facade and [combine]
    run ([Module Store]).  A [throw] keeps whatever was written to the
    instance before it. *)

From Stdlib Require Import ZArith Lia Ascii String.
From stdpp Require Import base tactics option list sorting strings gmap.

Local Open Scope Z_scope.

(** ** Numbers *)

(** The numbers of the source are IEEE doubles.  The functions modelled
    here add and compare numbers that are integers, so a finite number is
    kept as the integer it is.  The sum of two integers a double holds is
    the double nearest to their exact sum, the one with the even
    significand on a tie ([rne], 53 bits), and an infinity from 2^1024
    on.  Operands are finite, so no sum of infinities of opposite signs
    arises. *)
Module Double.

Inductive number : Type :=
  | Finite (z : Z)
  | Infinity (minus : bool).

#[global] Instance number_eq_dec : EqDecision number.
Proof. solve_decision. Defined.

Definition rne (z : Z) : Z :=
  let a := Z.abs z in
  if a <=? 2 ^ 53 then z
  else
    let e := Z.log2 a - 52 in
    let q := a / 2 ^ e in
    let r := a mod 2 ^ e in
    let half := 2 ^ (e - 1) in
    let q' :=
      if r <? half then q
      else if half <? r then q + 1
      else if Z.even q then q else q + 1 in
    Z.sgn z * (q' * 2 ^ e).

(** The double an exact integer result is rounded to. *)
Definition of_Z (z : Z) : number :=
  let r := rne z in
  if 2 ^ 1024 <=? Z.abs r then Infinity (r <? 0) else Finite r.

(** [a + b] and [a - b], for an integer [b] *)
Definition add (a : number) (b : Z) : number :=
  match a with
  | Finite z => of_Z (z + b)
  | Infinity minus => Infinity minus
  end.



(** The integers a double holds. *)
Definition exact (z : Z) : bool := (rne z =? z) && (Z.abs z <? 2 ^ 1024).

(** The sum of the absolute values of a list of integers; while it stays
    within 2^53, no sum of a part of the list is rounded. *)
Definition sum_abs (l : list Z) : Z := foldr (λ x s, Z.abs x + s) 0 l.

End Double.

(** ** sellTickets *)





Local Close Scope Z_scope.

(** ** Completions *)

(** The two [throw new Error(...)] sites of [checkUsage]: the first message
    is about the order of the selector parts, the second about a part that
    occurs more than once. *)
Inductive Error : Type :=
  | OrderingError
  | DuplicateError.

#[global] Instance Error_eq_dec : EqDecision Error.
Proof. solve_decision. Defined.

(** A call either returns normally or throws. *)
Inductive completion (A : Type) : Type :=
  | Normal (a : A)
  | Thrown (e : Error).
Arguments Normal {A} a.
Arguments Thrown {A} e.

(** ** One builder instance *)

Module CssSelectorBuilder.

(** The six strings [checkUsage] is called with, ['element'], ['id'],
    ['class'], ['attr'], ['pseudoClass'] and ['pseudoElement'];
    [`${methodName}Used`] is the field it then reads. *)
Inductive methodName : Type :=
  | Element | Id | Class | Attr | PseudoClass | PseudoElement.

#[global] Instance methodName_eq_dec : EqDecision methodName.
Proof. solve_decision. Defined.

(** The fields set by the constructor.  Each [xUsed] field holds a
    two-element array [[usedFlag, rankNumber]]; the arrays are created by
    the constructor and by [reset] and are only ever reached through the
    field of their own instance, so they are embedded by value. *)
Record t : Type := Build {
  result : string;
  previousOrder : nat;
  elementUsed : bool * nat;
  idUsed : bool * nat;
  classUsed : bool * nat;
  attrUsed : bool * nat;
  pseudoClassUsed : bool * nat;
  pseudoElementUsed : bool * nat;
  combinatorUsed : bool * nat
}.

#[global] Instance t_eq_dec : EqDecision t.
Proof. solve_decision. Defined.

(** [constructor()] *)
Definition constructor : t :=
  {| result := "";
     previousOrder := 0;
     elementUsed := (false, 0);
     idUsed := (false, 1);
     classUsed := (false, 2);
     attrUsed := (false, 3);
     pseudoClassUsed := (false, 4);
     pseudoElementUsed := (false, 5);
     combinatorUsed := (false, 6) |}.

(** [this[usedFlag]] *)
Definition used (m : methodName) (this : t) : bool * nat :=
  match m with
  | Element => elementUsed this
  | Id => idUsed this
  | Class => classUsed this
  | Attr => attrUsed this
  | PseudoClass => pseudoClassUsed this
  | PseudoElement => pseudoElementUsed this
  end.

(** [this.result = s] *)
Definition set_result (s : string) (this : t) : t :=
  Build s (previousOrder this) (elementUsed this) (idUsed this)
    (classUsed this) (attrUsed this) (pseudoClassUsed this)
    (pseudoElementUsed this) (combinatorUsed this).

(** [this.previousOrder = n] *)
Definition set_previousOrder (n : nat) (this : t) : t :=
  Build (result this) n (elementUsed this) (idUsed this)
    (classUsed this) (attrUsed this) (pseudoClassUsed this)
    (pseudoElementUsed this) (combinatorUsed this).

(** [this[usedFlag][0] = true]: the first cell of the array is
    overwritten, the second one stays. *)
Definition mark (a : bool * nat) : bool * nat := (true, a.2).

Definition set_used (m : methodName) (this : t) : t :=
  match m with
  | Element =>
      Build (result this) (previousOrder this) (mark (elementUsed this))
        (idUsed this) (classUsed this) (attrUsed this)
        (pseudoClassUsed this) (pseudoElementUsed this)
        (combinatorUsed this)
  | Id =>
      Build (result this) (previousOrder this) (elementUsed this)
        (mark (idUsed this)) (classUsed this) (attrUsed this)
        (pseudoClassUsed this) (pseudoElementUsed this)
        (combinatorUsed this)
  | Class =>
      Build (result this) (previousOrder this) (elementUsed this)
        (idUsed this) (mark (classUsed this)) (attrUsed this)
        (pseudoClassUsed this) (pseudoElementUsed this)
        (combinatorUsed this)
  | Attr =>
      Build (result this) (previousOrder this) (elementUsed this)
        (idUsed this) (classUsed this) (mark (attrUsed this))
        (pseudoClassUsed this) (pseudoElementUsed this)
        (combinatorUsed this)
  | PseudoClass =>
      Build (result this) (previousOrder this) (elementUsed this)
        (idUsed this) (classUsed this) (attrUsed this)
        (mark (pseudoClassUsed this)) (pseudoElementUsed this)
        (combinatorUsed this)
  | PseudoElement =>
      Build (result this) (previousOrder this) (elementUsed this)
        (idUsed this) (classUsed this) (attrUsed this)
        (pseudoClassUsed this) (mark (pseudoElementUsed this))
        (combinatorUsed this)
  end.

(** A method body: it runs on [this], may write to it, and completes
    normally or by a throw.  The instance written so far survives a
    throw. *)
Definition Meth (A : Type) : Type := t → completion A * t.

Definition ret {A} (a : A) : Meth A := λ this, (Normal a, this).

Definition throw {A} (e : Error) : Meth A := λ this, (Thrown e, this).

Definition bind {A B} (m : Meth A) (k : A → Meth B) : Meth B :=
  λ this,
    match m this with
    | (Normal a, this') => k a this'
    | (Thrown e, this') => (Thrown e, this')
    end.

Definition get : Meth t := λ this, (Normal this, this).

Definition modify (f : t → t) : Meth unit := λ this, (Normal tt, f this).

Declare Scope meth_scope.
Delimit Scope meth_scope with meth.
Bind Scope meth_scope with Meth.
Notation "x <- m ;; k" := (bind m (λ x, k))
  (at level 100, m at next level, right associativity) : meth_scope.
Notation "m ;; k" := (bind m (λ _, k))
  (at level 100, right associativity) : meth_scope.
Notation "'when' c 'raise' e" :=
  (if c then throw e else ret tt) (at level 90, c at level 9) : meth_scope.

(** The used-flag names for which [checkUsage] skips the second check:
    [['classUsed', 'attrUsed', 'pseudoClassUsed', 'combinatorUsed']
      .includes(usedFlag)].  No method calls [checkUsage('combinator')],
    so the last entry of that array matches no [methodName]. *)
Definition repeatable (m : methodName) : bool :=
  bool_decide (m ∈ [Class; Attr; PseudoClass]).

(** [checkUsage(methodName)].  The assignment to [previousOrder] sits
    between the two checks, as in the source. *)
Definition checkUsage (m : methodName) : Meth unit :=
  (this <- get ;;
   when ((used m this).2 <? previousOrder this) raise OrderingError ;;
   this <- get ;;
   let flag := (used m this).2 in
   modify (set_previousOrder flag) ;;
   if negb (repeatable m) then
     this <- get ;;
     when ((used m this).1) raise DuplicateError ;;
     modify (set_used m)
   else ret tt)%meth.

(** [this.result += s] *)
Definition add_result (s : string) : Meth unit :=
  modify (λ this, set_result (result this +:+ s) this).

(** The text each method adds for [value]: [value], [`#${value}`],
    [`.${value}`], [`[${value}]`], [`:${value}`], [`::${value}`]. *)
Definition fragment (m : methodName) (value : string) : string :=
  match m with
  | Element => value
  | Id => "#" +:+ value
  | Class => "." +:+ value
  | Attr => "[" +:+ value +:+ "]"
  | PseudoClass => ":" +:+ value
  | PseudoElement => "::" +:+ value
  end.

(** The six fragment methods.  Each ends in [return this]; the
    reference itself is handed back by [Store.call_this]. *)
Definition element (value : string) : Meth unit :=
  (checkUsage Element ;; add_result value)%meth.

Definition id (value : string) : Meth unit :=
  (checkUsage Id ;; add_result ("#" +:+ value))%meth.

Definition class (value : string) : Meth unit :=
  (checkUsage Class ;; add_result ("." +:+ value))%meth.

Definition attr (value : string) : Meth unit :=
  (checkUsage Attr ;; add_result ("[" +:+ value +:+ "]"))%meth.

Definition pseudoClass (value : string) : Meth unit :=
  (checkUsage PseudoClass ;; add_result (":" +:+ value))%meth.

Definition pseudoElement (value : string) : Meth unit :=
  (checkUsage PseudoElement ;; add_result ("::" +:+ value))%meth.

(** [reset()]: every field is assigned anew, the seven arrays being fresh
    ones. *)
Definition reset : Meth unit :=
  modify (λ _,
    {| result := "";
       previousOrder := 0;
       elementUsed := (false, 0);
       idUsed := (false, 1);
       classUsed := (false, 2);
       attrUsed := (false, 3);
       pseudoClassUsed := (false, 4);
       pseudoElementUsed := (false, 5);
       combinatorUsed := (false, 6) |}).

(** [stringify()]: [const { result } = this; this.reset(); return result]. *)
Definition stringify : Meth string :=
  (this <- get ;;
   let result := result this in
   reset ;;
   ret result)%meth.

(** The method named by [m], applied to [value]. *)
Definition append (m : methodName) (value : string) : Meth unit :=
  match m with
  | Element => element value
  | Id => id value
  | Class => class value
  | Attr => attr value
  | PseudoClass => pseudoClass value
  | PseudoElement => pseudoElement value
  end.

(** A chain of fragment calls on one instance,
    [this.m1(v1).m2(v2)...]; the first throw ends it. *)
Fixpoint chain (calls : list (methodName * string)) : Meth unit :=
  match calls with
  | [] => ret tt
  | (m, value) :: rest => (append m value ;; chain rest)%meth
  end.

End CssSelectorBuilder.

(** ** The store of instances *)

Module Store.
Import CssSelectorBuilder.

(** A reference to a builder is its index in the store; [new] puts the
    instance at the end, so a reference, once handed out, stays valid. *)
Abbreviation loc := nat (only parsing).
Abbreviation heap := (list CssSelectorBuilder.t) (only parsing).

(** A program on the store.  [None] is a read through a reference that
    was never allocated, which no JavaScript value can be. *)
Definition Prog (A : Type) : Type := heap → option (completion A * heap).

Definition ret {A} (a : A) : Prog A := λ h, Some (Normal a, h).

Definition bind {A B} (p : Prog A) (k : A → Prog B) : Prog B :=
  λ h,
    match p h with
    | Some (Normal a, h') => k a h'
    | Some (Thrown e, h') => Some (Thrown e, h')
    | None => None
    end.

Declare Scope prog_scope.
Delimit Scope prog_scope with prog.
Bind Scope prog_scope with Prog.
Notation "x <- p ;; k" := (bind p (λ x, k))
  (at level 100, p at next level, right associativity) : prog_scope.
Notation "p ;; k" := (bind p (λ _, k))
  (at level 100, right associativity) : prog_scope.

(** [new CssSelectorBuilder()] *)
Definition new : Prog loc :=
  λ h, Some (Normal (length h), h ++ [constructor]).

(** [l.method(...)]: the method runs on the instance [l] refers to and
    its writes land there, also when it throws. *)
Definition call {A} (l : loc) (m : Meth A) : Prog A :=
  λ h,
    match h !! l with
    | Some this => let '(c, this') := m this in Some (c, <[l:=this']> h)
    | None => None
    end.

(** A call of a method that ends in [return this]. *)
Definition call_this (l : loc) (m : Meth unit) : Prog loc :=
  (call l m ;; ret l)%prog.

(** [CssSelectorBuilder.prototype.combine]; the receiver [this] is not
    used by the body. *)
Definition combine (this : loc) (selector1 : loc) (combinator : string)
    (selector2 : loc) : Prog loc :=
  (result <- new ;;
   s1 <- call selector1 stringify ;;
   s2 <- call selector2 stringify ;;
   call result
     (modify (set_result (s1 +:+ " " +:+ combinator +:+ " " +:+ s2))) ;;
   ret result)%prog.

(** [b.m1(v1).m2(v2)...]: each call is made on the reference the call
    before it returned. *)
Fixpoint chain (b : loc) (calls : list (methodName * string)) : Prog loc :=
  match calls with
  | [] => ret b
  | (m, value) :: rest =>
      (b' <- call_this b (append m value) ;; chain b' rest)%prog
  end.

(** The store after [combine]: both arguments finalised, the new
    instance at the end. *)
Definition combined (h : heap) (l1 l2 : loc) (s : string) : heap :=
  <[l2:=constructor]> (<[l1:=constructor]> h) ++ [set_result s constructor].

(** What [combine] reads from its second argument: its text, unless the
    first argument is the same instance, which is empty by then. *)
Definition second_text (l1 l2 : loc) (b2 : t) : string :=
  if decide (l1 = l2) then "" else result b2.

End Store.

(** ** The facade object [cssSelectorBuilder] *)

Module cssSelectorBuilder.
Import Store.

Definition element (value : string) : Prog loc :=
  (b <- new ;; call_this b (CssSelectorBuilder.element value))%prog.

Definition id (value : string) : Prog loc :=
  (b <- new ;; call_this b (CssSelectorBuilder.id value))%prog.

Definition class (value : string) : Prog loc :=
  (b <- new ;; call_this b (CssSelectorBuilder.class value))%prog.

Definition attr (value : string) : Prog loc :=
  (b <- new ;; call_this b (CssSelectorBuilder.attr value))%prog.

Definition pseudoClass (value : string) : Prog loc :=
  (b <- new ;; call_this b (CssSelectorBuilder.pseudoClass value))%prog.

Definition pseudoElement (value : string) : Prog loc :=
  (b <- new ;; call_this b (CssSelectorBuilder.pseudoElement value))%prog.

(** [new CssSelectorBuilder().combine(selector1, combinator, selector2)]:
    the receiver is a builder of its own, allocated before the call. *)
Definition combine (selector1 : loc) (combinator : string)
    (selector2 : loc) : Prog loc :=
  (this <- new ;; Store.combine this selector1 combinator selector2)%prog.

(** The facade method named by [m], applied to [value]. *)
Definition append (m : CssSelectorBuilder.methodName) (value : string) :
    Prog loc :=
  match m with
  | CssSelectorBuilder.Element => element value
  | CssSelectorBuilder.Id => id value
  | CssSelectorBuilder.Class => class value
  | CssSelectorBuilder.Attr => attr value
  | CssSelectorBuilder.PseudoClass => pseudoClass value
  | CssSelectorBuilder.PseudoElement => pseudoElement value
  end.

End cssSelectorBuilder.

(** ** Client programs *)

Module Client.
Import CssSelectorBuilder Store.

(** [builder.m0(v0).m1(v1)...stringify()] *)
Definition build (first : methodName * string)
    (rest : list (methodName * string)) : Prog string :=
  (b <- cssSelectorBuilder.append first.1 first.2 ;;
   b <- chain b rest ;;
   call b stringify)%prog.

(** [builder.combine(builder.combine(a, c1, b), c2, c).stringify()] *)
Definition nested_left (a : loc) (c1 : string) (b : loc) (c2 : string)
    (c : loc) : Prog string :=
  (ab <- cssSelectorBuilder.combine a c1 b ;;
   abc <- cssSelectorBuilder.combine ab c2 c ;;
   call abc stringify)%prog.

(** [builder.combine(a, c1, builder.combine(b, c2, c)).stringify()]:
    the inner call is an argument and runs first. *)
Definition nested_right (a : loc) (c1 : string) (b : loc) (c2 : string)
    (c : loc) : Prog string :=
  (bc <- cssSelectorBuilder.combine b c2 c ;;
   abc <- cssSelectorBuilder.combine a c1 bc ;;
   call abc stringify)%prog.

(** [builder.combine(builder.element('div').id('main'), '+',
      builder.element('table').id('data')).stringify()] *)
Definition combine_example : Prog string :=
  (s1 <- cssSelectorBuilder.element "div" ;;
   s1 <- call_this s1 (id "main") ;;
   s2 <- cssSelectorBuilder.element "table" ;;
   s2 <- call_this s2 (id "data") ;;
   r <- cssSelectorBuilder.combine s1 "+" s2 ;;
   call r stringify)%prog.

End Client.

(** ** What an instance has been through *)

Module History.
Import CssSelectorBuilder.

(** The rank of a part is the second cell of its array, as the
    constructor writes it. *)
Definition rank (m : methodName) : nat := (used m constructor).2.

(** The text of a list of fragment calls, in call order. *)
Definition text (calls : list (methodName * string)) : string :=
  foldr (λ c s, fragment c.1 c.2 +:+ s) "" calls.

(** The rank of the last call of a list, if there is one. *)
Definition lastRank (calls : list (methodName * string)) : nat :=
  from_option (λ c, rank c.1) 0 (last calls).

Definition flag (m : methodName) (calls : list (methodName * string)) : bool :=
  bool_decide (m ∈ calls.*1).

(** The instance that has [base] as the text it started from and [log] as
    the fragment calls that returned since. *)
Definition state_of (base : string) (log : list (methodName * string)) : t :=
  {| result := base +:+ text log;
     previousOrder := lastRank log;
     elementUsed := (flag Element log, 0);
     idUsed := (flag Id log, 1);
     classUsed := (false, 2);
     attrUsed := (false, 3);
     pseudoClassUsed := (false, 4);
     pseudoElementUsed := (flag PseudoElement log, 5);
     combinatorUsed := (false, 6) |}.

(** The states an instance goes through.  It starts as the constructor
    leaves it, or with the text [combine] writes into a new instance;
    then come fragment calls, which return or throw, and [stringify].
    [history this base log]: [this] is such a state, [base] is the text
    it started from and [log] the fragment calls that have returned,
    both since the instance was created or last finalised. *)
Inductive history : t → string → list (methodName * string) → Prop :=
  | history_new : history constructor "" []
  | history_combined s : history (set_result s constructor) s []
  | history_returned this base log m value this' :
      history this base log →
      append m value this = (Normal tt, this') →
      history this' base (log ++ [(m, value)])
  | history_thrown this base log m value e this' :
      history this base log →
      append m value this = (Thrown e, this') →
      history this' base log
  | history_stringify this base log :
      history this base log →
      history (stringify this).2 "" [].

(** The states of instances, and the stores that hold only such. *)
Definition reachable (this : t) : Prop := ∃ base log, history this base log.

Definition store_ok (h : list t) : Prop := Forall reachable h.

(** A list of fragment calls respects the order of the parts when the
    ranks never go down, and the singleton constraint when no part other
    than class, attribute and pseudo-class occurs twice. *)
Definition rank_le (a b : methodName) : Prop := rank a ≤ rank b.

Definition ordered (calls : list (methodName * string)) : Prop :=
  Sorted rank_le calls.*1.

Definition singletons_once (calls : list (methodName * string)) : Prop :=
  NoDup (filter (λ m, repeatable m = false) calls.*1).

Definition respects (calls : list (methodName * string)) : Prop :=
  ordered calls ∧ singletons_once calls.

#[global] Instance rank_le_dec a b : Decision (rank_le a b).
Proof. unfold rank_le. apply _. Defined.

#[global] Instance respects_dec calls : Decision (respects calls).
Proof. unfold respects, ordered, singletons_once. apply _. Defined.

End History.

(** The double quote character, for the attribute values of the examples. *)
Definition quote : string := String "034"%char EmptyString.

(** ** Objects used as records *)

(** An object is modelled by the finite map from the names of its own
    enumerable properties to their values; its prototype is
    [Object.prototype], whose properties [key in obj] and a read of
    [obj[key]] also see.  Numbers are integers that doubles hold. *)
Module Objects.

(** The names of the properties of [Object.prototype]. *)
Definition Object_prototype : list string :=
  ["constructor"; "__defineGetter__"; "__defineSetter__"; "hasOwnProperty";
   "__lookupGetter__"; "__lookupSetter__"; "isPrototypeOf";
   "propertyIsEnumerable"; "toString"; "valueOf"; "__proto__";
   "toLocaleString"].

Definition inherited (key : string) : bool :=
  bool_decide (key ∈ Object_prototype).

(** [Object.keys(obj)] and [Object.entries(obj)] *)
Definition keys {V} (obj : gmap string V) : list string :=
  (map_to_list obj).*1.

Definition entries {V} (obj : gmap string V) : list (string * V) :=
  map_to_list obj.

(** [key in obj]: an own property, or a property of [Object.prototype]. *)
Definition has {V} (key : string) (obj : gmap string V) : bool :=
  bool_decide (is_Some (obj !! key)) || inherited key.

(** The body of the inner [forEach] of [mergeObjects]:
    [if (key in newObj) newObj[key] += value; else newObj[key] = value].
    When [key] is found on [Object.prototype] only, [+=] reads the
    function or object held there and stores the text the engine makes
    of it, or nothing at all under [__proto__]; that case is left out of
    the model ([None]). *)
Definition mergeObjects_entry (newObj : gmap string Double.number)
    (e : string * Z) : option (gmap string Double.number) :=
  let '(key, value) := e in
  if has key newObj
  then
    match newObj !! key with
    | Some old => Some (<[key:=Double.add old value]> newObj)
    | None => None
    end
  else Some (<[key:=Double.Finite value]> newObj).

Definition mergeObjects_step (newObj : option (gmap string Double.number))
    (e : string * Z) : option (gmap string Double.number) :=
  match newObj with
  | Some newObj => mergeObjects_entry newObj e
  | None => None
  end.

(** [mergeObjects(objects)] *)
Definition mergeObjects (objects : list (gmap string Z)) :
    option (gmap string Double.number) :=
  foldl (λ newObj obj, foldl mergeObjects_step newObj (entries obj))
    (Some ∅) objects.

(** [removeProperties(obj, keys)]: [newObj] starts as the spread copy of
    [obj]; the test [el in obj] is made on the argument, the [delete] on
    the copy, where it removes an own property or nothing. *)
Definition removeProperties {V} (obj : gmap string V) (keys : list string) :
    gmap string V :=
  foldl (λ newObj el, if has el obj then delete el newObj else newObj)
    obj keys.

(** The values [compareObjects] is documented for: no nested objects.
    [Undefined] is also what a read of a missing property gives. *)
Inductive value : Type :=
  | Undefined
  | Null
  | Boolean (b : bool)
  | Number (n : Z)
  | String_ (s : string).

#[global] Instance value_eq_dec : EqDecision value.
Proof. solve_decision. Defined.

(** What a read gives: a value, or the function or object
    [Object.prototype] holds under that name. *)
Inductive read : Type :=
  | Value (v : value)
  | Inherited (name : string).

#[global] Instance read_eq_dec : EqDecision read.
Proof. solve_decision. Defined.

(** [obj[key]] *)
Definition get (obj : gmap string value) (key : string) : read :=
  match obj !! key with
  | Some v => Value v
  | None => if inherited key then Inherited key else Value Undefined
  end.

(** [compareObjects(obj1, obj2)]; [===] on what a read gives is equality. *)
Definition compareObjects (obj1 obj2 : gmap string value) : bool :=
  bool_decide (length (keys obj1) = length (keys obj2)) &&
  forallb (λ key, bool_decide (get obj1 key = get obj2 key)) (keys obj1).

(** [isEmptyObject(obj)] *)
Definition isEmptyObject {V} (obj : gmap string V) : bool :=
  bool_decide (length (keys obj) = 0).

(** An object none of whose keys is a name of [Object.prototype]. *)
Definition plain {V} (obj : gmap string V) : Prop :=
  map_Forall (λ key _, inherited key = false) obj.

#[global] Instance plain_dec {V} (obj : gmap string V) : Decision (plain obj).
Proof. unfold plain. apply _. Defined.

(** An object whose values are integers a double holds: the objects
    [mergeObjects] is modelled for. *)
Definition numeric (obj : gmap string Z) : Prop :=
  map_Forall (λ _ value, Double.exact value = true) obj.

#[global] Instance numeric_dec (obj : gmap string Z) : Decision (numeric obj).
Proof. unfold numeric. apply _. Defined.

(** The values the objects of an array hold for [key], in array order. *)
Definition values_of (key : string) (objects : list (gmap string Z)) :
    list Z :=
  omap (λ obj : gmap string Z, obj !! key) objects.

Definition sum (l : list Z) : Z := foldr Z.add 0%Z l.

(** What [mergeObjects] makes of the values of one key: the first is
    stored, each later one is added to what is stored. *)
Definition accumulated (values : list Z) : option Double.number :=
  foldl (λ acc value,
           Some (match acc with
                 | Some old => Double.add old value
                 | None => Double.Finite value
                 end))
    None values.

(** All the values of the objects of an array. *)
Definition all_values (objects : list (gmap string Z)) : list Z :=
  objects ≫= (λ obj, (map_to_list obj).*2).

End Objects.

(** ** makeWord *)

Module MakeWord.

(** The clamping of a relative index by [Array.prototype.fill]: a negative
    index counts from the end, and both ends are cut to the array. *)
Definition relative (len i : Z) : Z :=
  if (i <? 0)%Z then Z.max (len + i) 0 else Z.min i len.

(** [O.fill(value, start, end)] on an array with holes ([None]). *)
Definition fill {A} (O : list (option A)) (value : A) (start end_ : Z) :
    list (option A) :=
  let len := Z.of_nat (length O) in
  let k := Z.to_nat (relative len start) in
  let final := Z.to_nat (relative len end_) in
  foldl (λ O i, <[i:=Some value]> O) O (seq k (final - k)).

(** [words.join('')]: a hole gives the empty string. *)
Definition join (words : list (option string)) : string :=
  foldr (λ w s, default "" w +:+ s) "" words.

(** [makeWord(lettersObject)], the object being given by its entries in
    property order; the positions are integers. *)
Definition makeWord (lettersObject : list (string * list Z)) : string :=
  let words := replicate 100 None in
  let words :=
    foldl (λ words '(key, value),
             foldl (λ words index, fill words key index (index + 1)%Z)
               words value)
      words lettersObject in
  join words.

(** The position of the array a write with index [i] lands on. *)
Definition position (i : Z) : option nat :=
  if decide (0 ≤ i < 100)%Z then Some (Z.to_nat i)
  else if decide (-100 ≤ i ≤ -2)%Z then Some (Z.to_nat (100 + i))
  else None.

(** The writes of [makeWord], in the order they are made. *)
Definition writes (lettersObject : list (string * list Z)) :
    list (Z * string) :=
  lettersObject ≫= (λ '(key, value), (λ index, (index, key)) <$> value).

(** The key written last on position [n], if any. *)
Definition letter_at (lettersObject : list (string * list Z)) (n : nat) :
    option string :=
  snd <$> last (filter (λ w, position w.1 = Some n) (writes lettersObject)).

End MakeWord.

(** ** group *)

(** The built-in [Map], as far as [group] uses it: the entries in the
    order their keys were first set. *)
Module JsMap.
Section ops.
Context {K V : Type} `{EqDecision K}.

(** [map.has(key)] *)
Definition has (key : K) (map : list (K * V)) : bool :=
  bool_decide (key ∈ map.*1).

(** [map.get(key)] *)
Fixpoint get (key : K) (map : list (K * V)) : option V :=
  match map with
  | [] => None
  | (k, v) :: rest => if decide (k = key) then Some v else get key rest
  end.

(** A write to the value held for [key], in place. *)
Fixpoint update (f : V → V) (key : K) (map : list (K * V)) : list (K * V) :=
  match map with
  | [] => []
  | (k, v) :: rest =>
      if decide (k = key) then (k, f v) :: rest
      else (k, v) :: update f key rest
  end.

(** [map.set(key, value)] *)
Definition set (key : K) (value : V) (map : list (K * V)) : list (K * V) :=
  if has key map then update (λ _, value) key map else map ++ [(key, value)].

End ops.
End JsMap.

Module Group.
Section group.
Context {A K V : Type} `{EqDecision K}.

(** The callback of the [reduce]; [map.get(key).push(value)] writes to
    the array the map holds for [key]. *)
Definition group_step (keySelector : A → K) (valueSelector : A → V)
    (map : list (K * list V)) (obj : A) : list (K * list V) :=
  let key := keySelector obj in
  let value := valueSelector obj in
  let map := if negb (JsMap.has key map) then JsMap.set key [] map else map in
  JsMap.update (λ arr, arr ++ [value]) key map.

(** [group(array, keySelector, valueSelector)] *)
Definition group (array : list A) (keySelector : A → K)
    (valueSelector : A → V) : list (K * list V) :=
  foldl (group_step keySelector valueSelector) [] array.

End group.
End Group.

(** * Properties *)

Section sellTickets_facts.
Local Open Scope Z_scope.

Lemma pow_53_1024 : 2 ^ 53 < 2 ^ 1024.
Proof. reflexivity. Qed.

(** Within 2^53 an integer result is not rounded. *)
Lemma of_Z_exact z : Z.abs z ≤ 2 ^ 53 → Double.of_Z z = Double.Finite z.
Proof.
  intros Hz. unfold Double.of_Z, Double.rne.
  destruct (Z.leb_spec (Z.abs z) (2 ^ 53)) as [_|Hgt]; [|lia].
  destruct (Z.leb_spec (2 ^ 1024) (Z.abs z)) as [Hbig|_]; [|done].
  pose proof pow_53_1024. lia.
Qed.

Lemma sum_abs_nonneg l : 0 ≤ Double.sum_abs l.
Proof. unfold Double.sum_abs. induction l; simpl; lia. Qed.

Lemma sum_abs_perm l l' : l ≡ₚ l' → Double.sum_abs l = Double.sum_abs l'.
Proof. unfold Double.sum_abs. induction 1; simpl; lia. Qed.





End sellTickets_facts.

Section string_facts.

Lemma string_app_assoc (s1 s2 s3 : string) :
  (s1 +:+ s2) +:+ s3 = s1 +:+ s2 +:+ s3.
Proof.
  induction s1 as [|a s1 IH]; [done|].
  change (String a ((s1 +:+ s2) +:+ s3) = String a (s1 +:+ s2 +:+ s3)).
  by rewrite IH.
Qed.

Lemma string_app_nil_r (s : string) : s +:+ "" = s.
Proof.
  induction s as [|a s IH]; [done|].
  change (String a (s +:+ "") = String a s). by rewrite IH.
Qed.

End string_facts.

(** ** One instance: the methods *)

Section method_facts.
Import CssSelectorBuilder.

Lemma used_set_previousOrder m n this :
  used m (set_previousOrder n this) = used m this.
Proof. by destruct m. Qed.

(** The parts for which the second check is made are element, id and
    pseudo-element. *)
Lemma singleton_not_repeatable m :
  m ∈ [Element; Id; PseudoElement] ↔ repeatable m = false.
Proof.
  destruct m; split; intros H; try done;
    try (by apply (bool_decide_unpack _));
    exfalso; revert H; by apply (bool_decide_unpack _).
Qed.

(** [checkUsage] by cases, in the order the source goes through them. *)
Lemma checkUsage_cases (m : methodName) (this : t) :
  checkUsage m this =
    if (used m this).2 <? previousOrder this
    then (Thrown OrderingError, this)
    else if repeatable m
    then (Normal tt, set_previousOrder (used m this).2 this)
    else if (used m this).1
    then (Thrown DuplicateError, set_previousOrder (used m this).2 this)
    else (Normal tt, set_used m (set_previousOrder (used m this).2 this)).
Proof.
  unfold checkUsage, bind, get, modify, throw, ret.
  destruct ((used m this).2 <? previousOrder this); [done|].
  destruct (repeatable m); simpl; [done|].
  rewrite used_set_previousOrder.
  by destruct ((used m this).1).
Qed.

(** Each fragment method is [checkUsage] followed by the write of its
    text. *)
Lemma append_cases (m : methodName) (value : string) (this : t) :
  append m value this =
    match checkUsage m this with
    | (Normal _, this') =>
        (Normal tt, set_result (result this' +:+ fragment m value) this')
    | (Thrown e, this') => (Thrown e, this')
    end.
Proof.
  destruct m; simpl;
    unfold element, id, class, attr, pseudoClass, pseudoElement, bind,
      add_result, modify;
    by repeat case_match.
Qed.

Lemma stringify_cases (this : t) :
  stringify this = (Normal (result this), constructor).
Proof. done. Qed.

(** A fragment call that returns has added its text at the end. *)
Lemma append_returned_result m value this this' :
  append m value this = (Normal tt, this') →
  result this' = result this +:+ fragment m value.
Proof.
  rewrite append_cases, checkUsage_cases.
  repeat case_match; intros; simplify_eq; by destruct m.
Qed.

(** [checkUsage] writes [previousOrder] before its second check.  On a
    record with the id flagged and [previousOrder] still 0, which is the
    state of no instance (see [history_state_of]: a flagged part has a
    rank no higher than the last one), the duplicate throw would come
    after a visible write. *)
Lemma checkUsage_write_before_second_check :
  checkUsage Id
    (Build "" 0 (false, 0) (true, 1) (false, 2) (false, 3) (false, 4)
       (false, 5) (false, 6)) =
  (Thrown DuplicateError,
   Build "" 1 (false, 0) (true, 1) (false, 2) (false, 3) (false, 4)
     (false, 5) (false, 6)).
Proof. reflexivity. Qed.

End method_facts.

(** ** One instance: its states *)

Section history_facts.
Import CssSelectorBuilder History.

#[local] Instance rank_le_trans : Transitive rank_le.
Proof. unfold rank_le. intros a b c. lia. Qed.

Lemma text_app l1 l2 : text (l1 ++ l2) = text l1 +:+ text l2.
Proof.
  induction l1 as [|c l1 IH]; [done|].
  change (fragment c.1 c.2 +:+ text (l1 ++ l2)
          = (fragment c.1 c.2 +:+ text l1) +:+ text l2).
  by rewrite IH, string_app_assoc.
Qed.

Lemma text_snoc log m value :
  text (log ++ [(m, value)]) = text log +:+ fragment m value.
Proof.
  rewrite text_app. f_equal. unfold text. simpl. apply string_app_nil_r.
Qed.

Lemma lastRank_snoc log m value : lastRank (log ++ [(m, value)]) = rank m.
Proof. unfold lastRank. by rewrite last_snoc. Qed.

Lemma flag_snoc m' log m value :
  flag m' (log ++ [(m, value)]) = flag m' log || bool_decide (m' = m).
Proof.
  unfold flag. rewrite fmap_snoc. simpl.
  rewrite <- bool_decide_or. apply bool_decide_ext.
  by rewrite elem_of_app, list_elem_of_singleton.
Qed.

Lemma used_state_of m base log :
  used m (state_of base log) = (negb (repeatable m) && flag m log, rank m).
Proof. by destruct m. Qed.

(** A fragment call on [state_of base log], by cases. *)
Lemma append_state_of base log m value :
  append m value (state_of base log) =
    if rank m <? lastRank log
    then (Thrown OrderingError, state_of base log)
    else if negb (repeatable m) && flag m log
    then (Thrown DuplicateError,
          set_previousOrder (rank m) (state_of base log))
    else (Normal tt, state_of base (log ++ [(m, value)])).
Proof.
  rewrite append_cases, checkUsage_cases, used_state_of. simpl.
  change (previousOrder (state_of base log)) with (lastRank log).
  destruct (rank m <? lastRank log); [done|].
  destruct (repeatable m) eqn:Hrep; simpl.
  - f_equal. unfold state_of, set_result, set_previousOrder. simpl.
    rewrite text_snoc, lastRank_snoc, !flag_snoc, string_app_assoc.
    destruct m; try discriminate Hrep; simpl;
      by rewrite ?orb_false_r.
  - destruct (flag m log) eqn:Hflag; [done|]. f_equal.
    unfold state_of. rewrite text_snoc, lastRank_snoc, !flag_snoc.
    destruct m; try discriminate Hrep;
      unfold set_result, set_used, set_previousOrder, mark; simpl;
      by rewrite string_app_assoc, ?orb_false_r, ?orb_true_r.
Qed.

Lemma ordered_strongly log : ordered log ↔ StronglySorted rank_le log.*1.
Proof.
  split; [apply Sorted_StronglySorted, _ | apply StronglySorted_Sorted].
Qed.

Lemma ordered_snoc log m value :
  ordered (log ++ [(m, value)]) ↔
    ordered log ∧ ∀ m', m' ∈ log.*1 → rank m' ≤ rank m.
Proof.
  rewrite !ordered_strongly, fmap_snoc, StronglySorted_app. simpl. split.
  - intros (Hle & Hlog & _). split; [done|].
    intros m' Hm'. apply (Hle m' m Hm'). by apply list_elem_of_singleton.
  - intros (Hlog & Hle). split_and!; [|done|by repeat constructor].
    intros m1 m2 Hm1 ->%list_elem_of_singleton. by apply Hle.
Qed.

Lemma ordered_le_last log m :
  ordered log → m ∈ log.*1 → rank m ≤ lastRank log.
Proof.
  destruct (last log) as [[m0 v0]|] eqn:Hlast.
  - apply last_Some in Hlast as [log' ->].
    rewrite ordered_snoc, lastRank_snoc, fmap_snoc, elem_of_app.
    intros [_ Hle] [Hm| ->%list_elem_of_singleton]; [by apply Hle | done].
  - apply last_None in Hlast as ->. intros _ Hm. by apply elem_of_nil in Hm.
Qed.

Lemma lastRank_le log r :
  ordered log → lastRank log ≤ r ↔ ∀ m', m' ∈ log.*1 → rank m' ≤ r.
Proof.
  intros Hord. split.
  - intros Hr m' Hm'. pose proof (ordered_le_last log m' Hord Hm'). lia.
  - intros Hle. unfold lastRank.
    destruct (last log) as [[m0 v0]|] eqn:Hlast; simpl; [|lia].
    apply Hle. apply last_Some_elem_of in Hlast.
    by apply (list_elem_of_fmap_2 fst) in Hlast.
Qed.

Lemma singletons_once_snoc log m value :
  singletons_once (log ++ [(m, value)]) ↔
    singletons_once log ∧ (repeatable m = false → flag m log = false).
Proof.
  unfold singletons_once, flag.
  rewrite fmap_snoc, filter_app, filter_cons, filter_nil. simpl.
  destruct (repeatable m) eqn:Hrep.
  - rewrite decide_False by done. rewrite app_nil_r.
    split; [intros Hnd; split; [done | intros [=]] | by intros [Hnd _]].
  - rewrite decide_True by done. rewrite NoDup_app.
    rewrite bool_decide_eq_false. split.
    + intros (Hnd & Hnot & _). split; [done|]. intros _ Hm.
      apply (Hnot m); [|by apply list_elem_of_singleton].
      by apply list_elem_of_filter.
    + intros (Hnd & Hm). split_and!; [done| |apply NoDup_singleton].
      intros m' [_ Hm']%list_elem_of_filter ->%list_elem_of_singleton.
      by apply Hm.
Qed.

Lemma respects_snoc log m value :
  respects (log ++ [(m, value)]) ↔
    respects log ∧ lastRank log ≤ rank m ∧
    (repeatable m = false → flag m log = false).
Proof.
  unfold respects. rewrite ordered_snoc, singletons_once_snoc.
  split.
  - intros ((Hord & Hle) & Hnd & Hm). by rewrite lastRank_le.
  - intros ((Hord & Hnd) & Hle & Hm). by rewrite <- lastRank_le.
Qed.

Lemma respects_nil : respects [].
Proof. split; constructor. Qed.

(** In a list of calls that respects the order, a part that is flagged
    has a rank no higher than the last one. *)
Lemma flag_le_last log m :
  respects log → flag m log = true → rank m ≤ lastRank log.
Proof.
  intros [Hord _] Hm%bool_decide_eq_true. by apply ordered_le_last.
Qed.

(** A fragment call that throws leaves [state_of base log] as it was,
    when [log] respects the order. *)
Lemma append_state_of_thrown base log m value e this' :
  respects log →
  append m value (state_of base log) = (Thrown e, this') →
  this' = state_of base log.
Proof.
  intros Hlog. rewrite append_state_of.
  destruct (Nat.ltb_spec (rank m) (lastRank log)) as [|Hle];
    [by intros [= _ <-]|].
  destruct (negb (repeatable m) && flag m log) eqn:Hdup; [|done].
  apply andb_true_iff in Hdup as [_ Hflag].
  pose proof (flag_le_last log m Hlog Hflag).
  intros [= _ <-]. replace (rank m) with (lastRank log) by lia.
  done.
Qed.

(** The states an instance goes through are the [state_of base log],
    for lists [log] that respect the order and the singletons. *)
Lemma history_state_of this base log :
  history this base log → this = state_of base log ∧ respects log.
Proof.
  induction 1 as [|s|this base log m value this' _ [-> Hlog] Happ
                 |this base log m value e this' _ [-> Hlog] Happ
                 |this base log _ _].
  - split; [done | apply respects_nil].
  - split; [|apply respects_nil].
    unfold state_of, set_result. simpl. by rewrite string_app_nil_r.
  - rewrite append_state_of in Happ.
    destruct (Nat.ltb_spec (rank m) (lastRank log)) as [|Hle]; [done|].
    destruct (negb (repeatable m) && flag m log) eqn:Hdup; [done|].
    injection Happ as <-. split; [done|].
    apply respects_snoc. split_and!; [done..|].
    intros Hrep. by rewrite Hrep in Hdup.
  - by rewrite (append_state_of_thrown _ _ _ _ _ _ Hlog Happ).
  - split; [done | apply respects_nil].
Qed.

End history_facts.

(** ** Chains of fragment calls *)

Section chain_facts.
Import CssSelectorBuilder History.

Lemma chain_app l1 l2 this :
  chain (l1 ++ l2) this =
    match chain l1 this with
    | (Normal _, this') => chain l2 this'
    | (Thrown e, this') => (Thrown e, this')
    end.
Proof.
  revert this. induction l1 as [|[m value] l1 IH]; intros this; [done|].
  simpl. unfold bind.
  destruct (append m value this) as [[[]|e] this1]; [apply IH | done].
Qed.

Lemma chain_snoc calls m value this :
  chain (calls ++ [(m, value)]) this =
    match chain calls this with
    | (Normal _, this') => append m value this'
    | (Thrown e, this') => (Thrown e, this')
    end.
Proof.
  rewrite chain_app. destruct (chain calls this) as [[[]|e] this1]; [|done].
  simpl. unfold bind, ret.
  by destruct (append m value this1) as [[[]|e] this2].
Qed.

(** A chain that respects the order and the singletons returns, and
    leaves the instance with all its calls logged. *)
Lemma chain_state_of base calls :
  respects calls →
  chain calls (state_of base []) = (Normal tt, state_of base calls).
Proof.
  induction calls as [|[m value] calls IH] using rev_ind; [done|].
  intros (Hcalls & Hle & Hflag)%respects_snoc.
  rewrite chain_snoc, (IH Hcalls), append_state_of.
  destruct (Nat.ltb_spec (rank m) (lastRank calls)); [lia|].
  destruct (repeatable m); [done|]. by rewrite Hflag.
Qed.

(** Conversely, a chain that returns respects them. *)
Lemma chain_returned_respects base calls this' :
  chain calls (state_of base []) = (Normal tt, this') →
  this' = state_of base calls ∧ respects calls.
Proof.
  revert this'.
  induction calls as [|[m value] calls IH] using rev_ind; intros this'.
  { intros [= <-]. split; [done | apply respects_nil]. }
  rewrite chain_snoc.
  destruct (chain calls (state_of base [])) as [[[]|e] this1]; [|done].
  destruct (IH this1 eq_refl) as [-> Hcalls].
  rewrite append_state_of.
  destruct (Nat.ltb_spec (rank m) (lastRank calls)) as [|Hle]; [done|].
  destruct (negb (repeatable m) && flag m calls) eqn:Hdup; [done|].
  intros [= <-]. split; [done|].
  apply respects_snoc. split_and!; [done..|].
  intros Hrep. by rewrite Hrep in Hdup.
Qed.

Lemma state_of_nil base : state_of base [] = set_result base constructor.
Proof. unfold state_of, set_result. simpl. by rewrite string_app_nil_r. Qed.

(** A fragment call on a state an instance can be in, by cases: a throw
    leaves the state as it was. *)
Lemma append_history this base log m value :
  history this base log →
  append m value this =
    if rank m <? lastRank log then (Thrown OrderingError, this)
    else if negb (repeatable m) && flag m log then (Thrown DuplicateError, this)
    else (Normal tt, state_of base (log ++ [(m, value)])).
Proof.
  intros [-> Hlog]%history_state_of.
  destruct (append m value (state_of base log)) as [[[]|e] this'] eqn:Happ.
  - rewrite append_state_of in Happ. by repeat case_match.
  - assert (this' = state_of base log) as ->
      by (by eapply append_state_of_thrown).
    rewrite append_state_of in Happ. by repeat case_match; simplify_eq.
Qed.

(** Every [state_of base log] with [log] respecting the order and the
    singletons is the state of an instance. *)
Lemma state_of_history base log :
  respects log → history (state_of base log) base log.
Proof.
  induction log as [|[m value] log IH] using rev_ind.
  { intros _. rewrite state_of_nil. apply history_combined. }
  intros (Hlog & Hle & Hflag)%respects_snoc.
  apply (history_returned (state_of base log)); [by apply IH|].
  rewrite append_state_of.
  destruct (Nat.ltb_spec (rank m) (lastRank log)); [lia|].
  destruct (repeatable m); [done|]. by rewrite Hflag.
Qed.

Lemma history_iff this base log :
  history this base log ↔ this = state_of base log ∧ respects log.
Proof.
  split; [apply history_state_of|]. intros [-> Hlog].
  by apply state_of_history.
Qed.

Lemma lastRank_lt log r :
  r < lastRank log ↔ ∃ c, last log = Some c ∧ r < rank c.1.
Proof.
  unfold lastRank. destruct (last log) as [c|]; simpl.
  - split; [by exists c | by intros (? & [= <-] & ?)].
  - split; [lia | by intros (? & [=] & _)].
Qed.

(** The text an instance holds does not matter to what a fragment call
    does to the rest of it. *)
Lemma append_set_result s m value this :
  append m value (set_result (s +:+ result this) this) =
    ((append m value this).1,
     set_result (s +:+ result (append m value this).2)
       (append m value this).2).
Proof.
  rewrite !append_cases, !checkUsage_cases.
  replace (used m (set_result (s +:+ result this) this)) with (used m this)
    by (by destruct m).
  change (previousOrder (set_result (s +:+ result this) this))
    with (previousOrder this).
  destruct ((used m this).2 <? previousOrder this); [done|].
  destruct (repeatable m); [|destruct ((used m this).1); [done|]];
    simpl; f_equal; destruct m;
    unfold set_result, set_used, set_previousOrder; simpl;
    by rewrite ?string_app_assoc.
Qed.

Lemma chain_set_result s calls this :
  chain calls (set_result (s +:+ result this) this) =
    ((chain calls this).1,
     set_result (s +:+ result (chain calls this).2) (chain calls this).2).
Proof.
  revert this. induction calls as [|[m value] calls IH]; intros this; [done|].
  simpl. unfold bind. rewrite append_set_result.
  destruct (append m value this) as [[[]|e] this1]; simpl; [apply IH | done].
Qed.

End chain_facts.

(** ** The store *)

Section store_facts.
Import CssSelectorBuilder Store.

Lemma call_lookup {A} (l : loc) (m : Meth A) (h : heap) this :
  h !! l = Some this →
  call l m h = Some ((m this).1, <[l:=(m this).2]> h).
Proof. unfold call. intros ->. by destruct (m this). Qed.

Lemma call_inv {A} (l : loc) (m : Meth A) (h h' : heap) c :
  call l m h = Some (c, h') →
  ∃ this, h !! l = Some this ∧ c = (m this).1 ∧ h' = <[l:=(m this).2]> h.
Proof.
  unfold call. destruct (h !! l) as [this|]; [|done].
  destruct (m this) as [c' this'] eqn:Hm. intros [= <- <-].
  exists this. by rewrite Hm.
Qed.

(** A call writes to the instance it is made on, and to no other. *)
Lemma call_frame {A} (l : loc) (m : Meth A) (h h' : heap) c l' :
  call l m h = Some (c, h') → l' ≠ l → h' !! l' = h !! l'.
Proof.
  intros (this & _ & _ & ->)%call_inv Hne. by apply list_lookup_insert_ne.
Qed.

Lemma call_stringify (l : loc) (h : heap) this :
  h !! l = Some this →
  call l stringify h = Some (Normal (result this), <[l:=constructor]> h).
Proof. intros Hl. by rewrite (call_lookup _ _ _ _ Hl). Qed.

Lemma combine_spec (this l1 l2 : loc) (c : string) (h : heap) b1 b2 :
  h !! l1 = Some b1 → h !! l2 = Some b2 →
  combine this l1 c l2 h =
    Some (Normal (length h),
          combined h l1 l2
            (result b1 +:+ " " +:+ c +:+ " " +:+ second_text l1 l2 b2)).
Proof.
  intros H1 H2. unfold combine, bind, new, ret.
  pose proof (lookup_lt_Some _ _ _ H1) as Hlt1.
  pose proof (lookup_lt_Some _ _ _ H2) as Hlt2.
  rewrite (call_stringify l1 _ b1) by (by rewrite lookup_app_l by done).
  assert ((<[l1:=constructor]> (h ++ [constructor])) !! l2
          = Some (if decide (l1 = l2) then constructor else b2)) as H2'.
  { rewrite insert_app_l by done.
    rewrite lookup_app_l by (by rewrite length_insert).
    destruct (decide (l1 = l2)) as [->|Hne].
    - by apply list_lookup_insert_eq.
    - by rewrite list_lookup_insert_ne. }
  rewrite (call_stringify l2 _ _ H2').
  replace (result (if decide (l1 = l2) then constructor else b2))
    with (second_text l1 l2 b2)
    by (unfold second_text; by destruct (decide (l1 = l2))).
  rewrite !insert_app_l by (by rewrite ?length_insert).
  erewrite call_lookup; last first.
  { rewrite lookup_app_r by (by rewrite !length_insert).
    rewrite !length_insert, Nat.sub_diag. done. }
  unfold modify. simpl. do 2 f_equal. unfold combined.
  rewrite insert_app_r_alt by (by rewrite !length_insert).
  by rewrite !length_insert, Nat.sub_diag.
Qed.

Lemma facade_combine_spec (l1 l2 : loc) (c : string) (h : heap) b1 b2 :
  h !! l1 = Some b1 → h !! l2 = Some b2 →
  cssSelectorBuilder.combine l1 c l2 h =
    Some (Normal (S (length h)),
          combined (h ++ [constructor]) l1 l2
            (result b1 +:+ " " +:+ c +:+ " " +:+ second_text l1 l2 b2)).
Proof.
  intros H1 H2. unfold cssSelectorBuilder.combine, bind, new.
  rewrite (combine_spec _ l1 l2 c _ b1 b2)
    by (rewrite lookup_app_l; eauto using lookup_lt_Some).
  by rewrite length_app, Nat.add_1_r.
Qed.

Lemma call_this_lookup (l : loc) (m : Meth unit) (h : heap) this :
  h !! l = Some this →
  call_this l m h =
    Some (match (m this).1 with Normal _ => Normal l | Thrown e => Thrown e end,
          <[l:=(m this).2]> h).
Proof.
  intros Hl. unfold call_this, bind, ret. rewrite (call_lookup _ _ _ _ Hl).
  by destruct (m this).1.
Qed.

(** A chain of calls through one reference is the chain of the method
    bodies on the instance behind it. *)
Lemma store_chain (b : loc) calls (h : heap) this :
  h !! b = Some this →
  Store.chain b calls h =
    Some (match (CssSelectorBuilder.chain calls this).1 with
          | Normal _ => Normal b
          | Thrown e => Thrown e
          end,
          <[b:=(CssSelectorBuilder.chain calls this).2]> h).
Proof.
  revert h this. induction calls as [|[m value] calls IH]; intros h this Hb.
  { simpl. unfold ret. by rewrite list_insert_id. }
  pose proof (lookup_lt_Some _ _ _ Hb) as Hlt.
  simpl. unfold bind at 1. rewrite (call_this_lookup _ _ _ _ Hb).
  unfold CssSelectorBuilder.bind.
  destruct (append m value this) as [[[]|e] this1]; simpl; [|done].
  rewrite (IH _ this1) by (by apply list_lookup_insert_eq).
  by rewrite list_insert_insert_eq.
Qed.

(** A facade method allocates an instance and makes its first call. *)
Lemma facade_append m value (h : heap) :
  cssSelectorBuilder.append m value h =
    Some (match (append m value constructor).1 with
          | Normal _ => Normal (length h)
          | Thrown e => Thrown e
          end,
          h ++ [(append m value constructor).2]).
Proof.
  assert (∀ body : Meth unit,
    (b <- new ;; call_this b body)%prog h =
      Some (match (body constructor).1 with
            | Normal _ => Normal (length h)
            | Thrown e => Thrown e
            end,
            h ++ [(body constructor).2])) as Hnew.
  { intros body. unfold bind, new.
    rewrite (call_this_lookup _ _ _ constructor)
      by (by rewrite lookup_app_r, Nat.sub_diag).
    by rewrite insert_app_r_alt, Nat.sub_diag. }
  destruct m; apply Hnew.
Qed.

Lemma length_combined (h : heap) l1 l2 s :
  length (combined h l1 l2 s) = S (length h).
Proof.
  unfold combined. rewrite length_app, !length_insert. simpl. lia.
Qed.

Lemma combined_lookup_new (h : heap) l1 l2 s :
  combined h l1 l2 s !! length h = Some (set_result s constructor).
Proof.
  unfold combined. rewrite lookup_app_r by (by rewrite !length_insert).
  by rewrite !length_insert, Nat.sub_diag.
Qed.

Lemma combined_lookup_second (h : heap) l1 l2 s :
  l2 < length h → combined h l1 l2 s !! l2 = Some constructor.
Proof.
  intros Hlt. unfold combined.
  rewrite lookup_app_l by (by rewrite !length_insert).
  by apply list_lookup_insert_eq; rewrite length_insert.
Qed.

Lemma combined_lookup_other (h : heap) l1 l2 s l :
  l ≠ l1 → l ≠ l2 → l < length h → combined h l1 l2 s !! l = h !! l.
Proof.
  intros Hl1 Hl2 Hlt. unfold combined.
  rewrite lookup_app_l by (by rewrite !length_insert).
  by rewrite !list_lookup_insert_ne.
Qed.

(** Stores that hold states of instances stay so under every operation,
    and a fragment call that throws leaves such a store as it was. *)
Lemma store_ok_new (h : heap) x h' :
  History.store_ok h → new h = Some (x, h') → History.store_ok h'.
Proof.
  intros Hh [= _ <-]. apply Forall_app. split; [done|].
  apply Forall_singleton. exists "", []. apply History.history_new.
Qed.

Lemma store_ok_append (h : heap) l m value x h' :
  History.store_ok h → call l (append m value) h = Some (x, h') →
  History.store_ok h'.
Proof.
  intros Hh (this & Hl & -> & ->)%call_inv.
  apply Forall_insert; [done|].
  destruct (Forall_lookup_1 _ _ _ _ Hh Hl) as (base & log & Hthis).
  destruct (append m value this) as [[[]|e] this'] eqn:Happ; simpl.
  - exists base, (log ++ [(m, value)]).
    by apply (History.history_returned this).
  - exists base, log. by apply (History.history_thrown this _ _ m value e).
Qed.

Lemma store_ok_stringify (h : heap) l x h' :
  History.store_ok h → call l stringify h = Some (x, h') →
  History.store_ok h'.
Proof.
  intros Hh (this & Hl & -> & ->)%call_inv.
  apply Forall_insert; [done|]. exists "", []. apply History.history_new.
Qed.

Lemma store_ok_combine (h : heap) this l1 c l2 b1 b2 x h' :
  History.store_ok h → h !! l1 = Some b1 → h !! l2 = Some b2 →
  combine this l1 c l2 h = Some (x, h') → History.store_ok h'.
Proof.
  intros Hh H1 H2. rewrite (combine_spec _ _ _ _ _ _ _ H1 H2).
  intros [= _ <-]. unfold combined. apply Forall_app. split.
  - do 2 (apply Forall_insert; [|exists "", []; apply History.history_new]).
    done.
  - apply Forall_singleton. eexists _, []. apply History.history_combined.
Qed.

Lemma store_thrown_keeps_heap (h : heap) l m value e h' :
  History.store_ok h → call l (append m value) h = Some (Thrown e, h') →
  h' = h.
Proof.
  intros Hh (this & Hl & He & ->)%call_inv.
  destruct (Forall_lookup_1 _ _ _ _ Hh Hl) as (base & log & Hthis).
  rewrite (append_history _ _ _ _ _ Hthis) in He |- *.
  repeat case_match; simplify_eq/=; by apply list_insert_id.
Qed.

(** The facade's [combine], for two different instances. *)
Lemma facade_combine_distinct (l1 l2 : loc) (c : string) (h : heap) b1 b2 :
  h !! l1 = Some b1 → h !! l2 = Some b2 → l1 ≠ l2 →
  cssSelectorBuilder.combine l1 c l2 h =
    Some (Normal (S (length h)),
          combined (h ++ [constructor]) l1 l2
            (result b1 +:+ " " +:+ c +:+ " " +:+ result b2)).
Proof.
  intros H1 H2 Hne. rewrite (facade_combine_spec _ _ _ _ _ _ H1 H2).
  unfold second_text. by rewrite decide_False.
Qed.

End store_facts.

(** * The claims *)

Section ticket_claims.
Local Open Scope Z_scope.




End ticket_claims.

Section builder_claims.
Import CssSelectorBuilder History Store Client.

(** C1.  A chain of fragment calls that starts at the facade and respects
    the order of the parts and the singleton constraint returns, and
    [stringify()] then returns the texts of the calls, one after the other
    in call order: [value], [#value], [.value], [[value]], [:value],
    [::value].  The instance is left as a new one.  So it is for
    [element('a').id('main').class('x').attr('href$=.png')
     .pseudoClass('focus').pseudoElement('before')], with the attribute
    value quoted as in the source's example. *)
Theorem build_respects (first : methodName * string)
    (rest : list (methodName * string)) (h : heap)
    (Hcalls : respects (first :: rest)) :
  build first rest h =
    Some (Normal (text (first :: rest)), h ++ [constructor]) ∧
  (∀ value,
    fragment Element value = value ∧
    fragment Id value = "#" +:+ value ∧
    fragment Class value = "." +:+ value ∧
    fragment Attr value = "[" +:+ value +:+ "]" ∧
    fragment PseudoClass value = ":" +:+ value ∧
    fragment PseudoElement value = "::" +:+ value) ∧
  build (Element, "a")
    [(Id, "main"); (Class, "x");
     (Attr, "href$=" +:+ quote +:+ ".png" +:+ quote);
     (PseudoClass, "focus"); (PseudoElement, "before")] [] =
    Some (Normal ("a#main.x[href$=" +:+ quote +:+ ".png" +:+ quote
                  +:+ "]:focus::before"),
          [constructor]).
Proof.
  split_and!; [|done..].
  pose proof (chain_state_of "" _ Hcalls) as Hchain.
  destruct first as [m value]. simpl in Hchain.
  unfold CssSelectorBuilder.bind in Hchain.
  change (state_of "" []) with constructor in Hchain.
  unfold build, bind. rewrite facade_append. simpl.
  destruct (append m value constructor) as [[[]|e] this1]; [|done]. simpl.
  assert ((h ++ [this1]) !! length h = Some this1) as Hb
    by (by rewrite lookup_app_r, Nat.sub_diag).
  rewrite (store_chain _ _ _ _ Hb), Hchain. simpl.
  erewrite call_stringify; last first.
  { apply list_lookup_insert_eq. rewrite length_app. simpl. lia. }
  rewrite list_insert_insert_eq, insert_app_r_alt, Nat.sub_diag by done.
  done.
Qed.

Lemma build_respects_witness :
  respects [(Id, "main"); (Class, "container"); (Class, "editable")] ∧
  build (Id, "main") [(Class, "container"); (Class, "editable")] [] =
    Some (Normal "#main.container.editable", [constructor]).
Proof.
  assert (respects [(Id, "main"); (Class, "container"); (Class, "editable")])
    as Hcalls by (by apply (bool_decide_unpack _)).
  split; [exact Hcalls|].
  exact (proj1 (build_respects (Id, "main")
                  [(Class, "container"); (Class, "editable")] [] Hcalls)).
Defined.

(** C2.  On an instance in any state it can be in, a fragment call throws
    the ordering error exactly when the rank of its part is strictly
    below the rank of the part whose call returned last; with no such
    call yet, or with an equal rank, it does not.  The ranks are
    element 0, id 1, class 2, attribute 3, pseudo-class 4,
    pseudo-element 5.  So [element('div').class('a').class('b')] builds
    [div.a.b], and a class after an attribute throws, although either may
    be repeated. *)
Theorem ordering_error_iff this base log (m : methodName) (value : string)
    (Hthis : history this base log) :
  ((append m value this).1 = Thrown OrderingError ↔
     ∃ c, last log = Some c ∧ rank m < rank c.1) ∧
  (∀ c, last log = Some c → rank m = rank c.1 →
     (append m value this).1 ≠ Thrown OrderingError) ∧
  (rank Element = 0 ∧ rank Id = 1 ∧ rank Class = 2 ∧ rank Attr = 3 ∧
   rank PseudoClass = 4 ∧ rank PseudoElement = 5) ∧
  build (Element, "div") [(Class, "a"); (Class, "b")] [] =
    Some (Normal "div.a.b", [constructor]) ∧
  build (Element, "div") [(Attr, "x"); (Class, "a")] [] =
    Some (Thrown OrderingError,
          [state_of "" [(Element, "div"); (Attr, "x")]]).
Proof.
  assert ((append m value this).1 = Thrown OrderingError ↔
          rank m < lastRank log) as Hiff.
  { rewrite (append_history _ _ _ _ _ Hthis).
    destruct (Nat.ltb_spec (rank m) (lastRank log)); simpl.
    - done.
    - split; [|lia]. by repeat case_match. }
  split_and!; try done.
  - by rewrite Hiff, lastRank_lt.
  - intros c Hc Hrank. rewrite Hiff. unfold lastRank. rewrite Hc. simpl. lia.
Qed.

Lemma ordering_error_iff_witness :
  history (state_of "" [(Element, "div"); (Attr, "x")]) ""
    [(Element, "div"); (Attr, "x")] ∧
  (append Class "a" (state_of "" [(Element, "div"); (Attr, "x")])).1
    = Thrown OrderingError.
Proof.
  assert (history (state_of "" [(Element, "div"); (Attr, "x")]) ""
            [(Element, "div"); (Attr, "x")]) as Hthis.
  { apply (history_returned (state_of "" [(Element, "div")]) ""
             [(Element, "div")] Attr "x"); [|done].
    by apply (history_returned constructor "" [] Element "div");
      [apply history_new|]. }
  split; [exact Hthis|].
  apply (proj1 (ordering_error_iff _ _ _ Class "a" Hthis)).
  exists (Attr, "x"). split; [done | vm_compute; lia].
Defined.

(** C3.  On an instance in any state it can be in, a fragment call throws
    the duplicate error exactly when its part is element, id or
    pseudo-element, a call for that part has returned since the instance
    was created or last finalised, and the order check, which comes
    first, let the call through.  A call for class, attribute or
    pseudo-class never throws it, whatever the state.  So a second
    [element] throws it, and an [element] after a class throws the
    ordering error instead. *)
Theorem duplicate_error_iff this base log (m : methodName) (value : string)
    (Hthis : history this base log) :
  ((append m value this).1 = Thrown DuplicateError ↔
     m ∈ [Element; Id; PseudoElement] ∧ m ∈ log.*1 ∧
     lastRank log ≤ rank m) ∧
  (m ∈ [Class; Attr; PseudoClass] →
     ∀ this0, (append m value this0).1 ≠ Thrown DuplicateError) ∧
  build (Element, "div") [(Element, "p")] [] =
    Some (Thrown DuplicateError, [state_of "" [(Element, "div")]]) ∧
  build (Element, "div") [(Class, "a"); (Element, "p")] [] =
    Some (Thrown OrderingError,
          [state_of "" [(Element, "div"); (Class, "a")]]).
Proof.
  split_and!; try done.
  - rewrite (append_history _ _ _ _ _ Hthis).
    rewrite singleton_not_repeatable.
    unfold flag.
    destruct (Nat.ltb_spec (rank m) (lastRank log)); simpl.
    { split; [done | lia]. }
    destruct (repeatable m); simpl; [by split; [|intros [? _]]|].
    case_bool_decide; simpl; split; (done || tauto).
  - intros Hm this0 Hdup.
    assert (repeatable m = true) as Hrep by (by apply bool_decide_eq_true).
    rewrite append_cases, checkUsage_cases, Hrep in Hdup.
    by destruct ((used m this0).2 <? previousOrder this0).
Qed.

Lemma duplicate_error_iff_witness :
  history (state_of "" [(Element, "div")]) "" [(Element, "div")] ∧
  (append Element "p" (state_of "" [(Element, "div")])).1
    = Thrown DuplicateError.
Proof.
  assert (history (state_of "" [(Element, "div")]) "" [(Element, "div")])
    as Hthis.
  { by apply (history_returned constructor "" [] Element "div");
      [apply history_new|]. }
  split; [exact Hthis|].
  apply (proj1 (duplicate_error_iff _ _ _ Element "p" Hthis)).
  split_and!; [by apply (bool_decide_unpack _)..| vm_compute; lia].
Defined.

(** C4.  On an instance in any state it can be in, a fragment call that
    throws, whichever of the two errors, leaves the text, the last rank
    and every flag as they were before the call. *)
Theorem thrown_keeps_state this base log (m : methodName) (value : string)
    (e : Error) this'
    (Hthis : history this base log)
    (Hthrown : append m value this = (Thrown e, this')) :
  this' = this.
Proof.
  rewrite (append_history _ _ _ _ _ Hthis) in Hthrown.
  by repeat case_match; simplify_eq.
Qed.

Lemma thrown_keeps_state_witness :
  history (state_of "" [(Element, "div")]) "" [(Element, "div")] ∧
  (append Element "p" (state_of "" [(Element, "div")])).1
    = Thrown DuplicateError ∧
  (append Element "p" (state_of "" [(Element, "div")])).2
    = state_of "" [(Element, "div")].
Proof.
  assert (history (state_of "" [(Element, "div")]) "" [(Element, "div")])
    as Hthis.
  { by apply (history_returned constructor "" [] Element "div");
      [apply history_new|]. }
  split; [exact Hthis|]. split; [reflexivity|].
  exact (thrown_keeps_state _ _ _ Element "p" DuplicateError
           (append Element "p" (state_of "" [(Element, "div")])).2
           Hthis eq_refl).
Defined.

(** C7.  [stringify()] returns the text of the instance and leaves the
    instance as the constructor makes one: empty text, last rank 0, no
    flag set.  Any chain of fragment calls on it then does what it does
    on a new instance.  Through a reference, the call writes a new
    instance's state into that cell of the store. *)
Theorem stringify_resets (this : t) (h : heap) (l : loc) :
  stringify this = (Normal (result this), constructor) ∧
  (result constructor = "" ∧ previousOrder constructor = 0 ∧
   ∀ m, (used m constructor).1 = false) ∧
  (∀ calls,
     CssSelectorBuilder.chain calls (stringify this).2 =
     CssSelectorBuilder.chain calls constructor) ∧
  call l stringify h =
    (λ this0, (Normal (result this0), <[l:=constructor]> h)) <$> h !! l.
Proof.
  split_and!; try done. by intros [].
Qed.

(** C5.  [combine(first, combinator, second)] finalises [first], then
    [second], and returns a new instance whose text is the first string,
    a space, the combinator, a space, and the second string.  The first
    string is the text [first] held; the second is the text [second]
    held when the two are different instances, and empty when they are
    one instance, which the first [stringify()] has emptied by then.  The
    facade's [combine] does the same, after allocating its receiver.  So
    [combine(element('div').id('main'), '+', element('table').id('data'))
     .stringify()] is [div#main + table#data]. *)
Theorem combine_text (this l1 l2 : loc) (c : string) (h : heap) b1 b2
    (H1 : h !! l1 = Some b1) (H2 : h !! l2 = Some b2) :
  ∃ s1 s2 h1 h2,
    call l1 stringify h = Some (Normal s1, h1) ∧
    call l2 stringify h1 = Some (Normal s2, h2) ∧
    combine this l1 c l2 h =
      Some (Normal (length h),
            h2 ++ [set_result (s1 +:+ " " +:+ c +:+ " " +:+ s2) constructor]) ∧
    cssSelectorBuilder.combine l1 c l2 h =
      Some (Normal (S (length h)),
            h2 ++ [constructor;
                   set_result (s1 +:+ " " +:+ c +:+ " " +:+ s2) constructor]) ∧
    s1 = result b1 ∧
    (l1 ≠ l2 → s2 = result b2) ∧
    (l1 = l2 → s2 = "") ∧
    combine_example [] =
      Some (Normal "div#main + table#data",
            [constructor; constructor; constructor; constructor]).
Proof.
  pose proof (lookup_lt_Some _ _ _ H1) as Hlt1.
  pose proof (lookup_lt_Some _ _ _ H2) as Hlt2.
  exists (result b1), (second_text l1 l2 b2),
    (<[l1:=constructor]> h), (<[l2:=constructor]> (<[l1:=constructor]> h)).
  split_and!; try done.
  - by apply call_stringify.
  - unfold second_text. destruct (decide (l1 = l2)) as [->|Hne].
    + apply (call_stringify _ _ constructor). by apply list_lookup_insert_eq.
    + apply call_stringify. by rewrite list_lookup_insert_ne.
  - by rewrite (combine_spec _ _ _ _ _ _ _ H1 H2).
  - rewrite (facade_combine_spec _ _ _ _ _ _ H1 H2). unfold combined.
    rewrite !insert_app_l by (by rewrite ?length_insert).
    by rewrite <- app_assoc.
  - intros Hne. unfold second_text. by rewrite decide_False.
  - intros Heq. unfold second_text. by rewrite decide_True.
Qed.

Lemma combine_text_witness :
  [state_of "" [(Id, "main")]; state_of "" [(Class, "x")]] !! 0
    = Some (state_of "" [(Id, "main")]) ∧
  [state_of "" [(Id, "main")]; state_of "" [(Class, "x")]] !! 1
    = Some (state_of "" [(Class, "x")]) ∧
  ∃ s1 s2 h2,
    combine 0 0 ">" 1 [state_of "" [(Id, "main")]; state_of "" [(Class, "x")]] =
      Some (Normal 2,
            h2 ++ [set_result (s1 +:+ " " +:+ ">" +:+ " " +:+ s2) constructor]) ∧
    s1 = "#main" ∧ s2 = ".x".
Proof.
  split; [reflexivity|]. split; [reflexivity|].
  destruct (combine_text 0 0 1 ">"
              [state_of "" [(Id, "main")]; state_of "" [(Class, "x")]]
              _ _ eq_refl eq_refl)
    as (s1 & s2 & h1 & h2 & _ & _ & Hcombine & _ & Hs1 & Hs2 & _).
  exists s1, s2, h2. split; [exact Hcombine|].
  split; [exact Hs1 | apply Hs2; lia].
Defined.

(** C6.  [combine] finalises both of its arguments: when it returns, each
    is as the constructor makes an instance.  The instance it returns is a
    new one, different from both and from every instance there was, and
    every other instance is untouched.  After that, a method call or a
    [combine] on other references leaves the returned instance as it is,
    and a method call on the returned instance leaves all others as they
    are. *)
Theorem combine_resets_inputs (this l1 l2 : loc) (c : string) (h : heap) b1 b2
    (H1 : h !! l1 = Some b1) (H2 : h !! l2 = Some b2) :
  ∃ r h',
    combine this l1 c l2 h = Some (Normal r, h') ∧
    h' !! l1 = Some constructor ∧
    h' !! l2 = Some constructor ∧
    h !! r = None ∧ r ≠ l1 ∧ r ≠ l2 ∧
    (∀ l, l ≠ l1 → l ≠ l2 → l ≠ r → h' !! l = h !! l) ∧
    (∀ A (m : Meth A) l x h'',
       l ≠ r → call l m h' = Some (x, h'') → h'' !! r = h' !! r) ∧
    (∀ A (m : Meth A) l x h'',
       l ≠ r → call r m h' = Some (x, h'') → h'' !! l = h' !! l) ∧
    (∀ this' la c' lb ba bb,
       la ≠ r → lb ≠ r → h' !! la = Some ba → h' !! lb = Some bb →
       ∃ r' h'', combine this' la c' lb h' = Some (Normal r', h'') ∧
                 h'' !! r = h' !! r).
Proof.
  pose proof (lookup_lt_Some _ _ _ H1) as Hlt1.
  pose proof (lookup_lt_Some _ _ _ H2) as Hlt2.
  eexists _, _. split; [by apply (combine_spec _ _ _ _ _ b1 b2)|].
  unfold combined. split_and!.
  - rewrite lookup_app_l by (by rewrite !length_insert).
    destruct (decide (l1 = l2)) as [->|Hne].
    + by apply list_lookup_insert_eq; rewrite length_insert.
    + rewrite list_lookup_insert_ne by done. by apply list_lookup_insert_eq.
  - rewrite lookup_app_l by (by rewrite !length_insert).
    by apply list_lookup_insert_eq; rewrite length_insert.
  - by apply lookup_ge_None.
  - lia.
  - lia.
  - intros l Hl1 Hl2 Hr.
    destruct (decide (l < length h)) as [Hlt|Hge].
    + rewrite lookup_app_l by (by rewrite !length_insert).
      by rewrite !list_lookup_insert_ne.
    + rewrite (lookup_ge_None_2 h) by lia. apply lookup_ge_None_2.
      rewrite length_app, !length_insert. simpl. lia.
  - intros A m l x h'' Hl Hcall. by apply (call_frame _ _ _ _ _ _ Hcall).
  - intros A m l x h'' Hl Hcall. by apply (call_frame _ _ _ _ _ _ Hcall).
  - intros this' la c' lb ba bb Hla Hlb Ha Hb.
    eexists _, _. split; [by apply (combine_spec _ _ _ _ _ ba bb)|].
    unfold combined.
    rewrite lookup_app_l; [by rewrite !list_lookup_insert_ne|].
    rewrite !length_insert, length_app, !length_insert. simpl. lia.
Qed.

Lemma combine_resets_inputs_witness :
  [state_of "" [(Id, "main")]; state_of "" [(Class, "x")]] !! 0
    = Some (state_of "" [(Id, "main")]) ∧
  [state_of "" [(Id, "main")]; state_of "" [(Class, "x")]] !! 1
    = Some (state_of "" [(Class, "x")]) ∧
  ∃ r h',
    combine 0 0 ">" 1 [state_of "" [(Id, "main")]; state_of "" [(Class, "x")]]
      = Some (Normal r, h') ∧
    h' !! 0 = Some constructor ∧ h' !! 1 = Some constructor.
Proof.
  split; [reflexivity|]. split; [reflexivity|].
  destruct (combine_resets_inputs 0 0 1 ">"
              [state_of "" [(Id, "main")]; state_of "" [(Class, "x")]]
              _ _ eq_refl eq_refl)
    as (r & h' & Hcombine & Hl1 & Hl2 & _).
  exists r, h'. by split_and!.
Defined.

(** C8, as the code has it.  When [a] is a different instance from [b]
    and from [c], [combine(combine(a, c1, b), c2, c).stringify()] and
    [combine(a, c1, combine(b, c2, c)).stringify()] return the same
    string; when [b] and [c] differ too, it is the three texts in that
    order with the two combinators between them, each between single
    spaces.  An instance that [combine] returned is an argument like any
    other. *)
Theorem nested_combine_distinct (a b c : loc) (c1 c2 : string) (h : heap)
    ba bb bc
    (Ha : h !! a = Some ba) (Hb : h !! b = Some bb) (Hc : h !! c = Some bc)
    (Hab : a ≠ b) (Hac : a ≠ c) :
  ∃ s hl hr,
    nested_left a c1 b c2 c h = Some (Normal s, hl) ∧
    nested_right a c1 b c2 c h = Some (Normal s, hr) ∧
    s = result ba +:+ " " +:+ c1 +:+ " " +:+ result bb +:+ " " +:+ c2
        +:+ " " +:+ second_text b c bc ∧
    (b ≠ c →
     s = result ba +:+ " " +:+ c1 +:+ " " +:+ result bb +:+ " " +:+ c2
         +:+ " " +:+ result bc).
Proof.
  pose proof (lookup_lt_Some _ _ _ Ha) as Hlta.
  pose proof (lookup_lt_Some _ _ _ Hb) as Hltb.
  pose proof (lookup_lt_Some _ _ _ Hc) as Hltc.
  assert (length (h ++ [constructor]) = S (length h)) as Hlen
    by (rewrite length_app; simpl; lia).
  eexists _, _, _. split_and!; [| |reflexivity|].
  - unfold nested_left, bind.
    rewrite (facade_combine_distinct _ _ _ _ _ _ Ha Hb Hab).
    set (s1 := result ba +:+ " " +:+ c1 +:+ " " +:+ result bb).
    set (h1 := combined (h ++ [constructor]) a b s1).
    assert (h1 !! S (length h) = Some (set_result s1 constructor)) as Hr1
      by (rewrite <- Hlen; apply combined_lookup_new).
    assert (h1 !! c = Some (if decide (b = c) then constructor else bc))
      as Hc1.
    { unfold h1. destruct (decide (b = c)) as [<-|Hbc].
      - apply combined_lookup_second. lia.
      - rewrite combined_lookup_other by (done || lia).
        by rewrite lookup_app_l. }
    rewrite (facade_combine_distinct _ _ _ _ _ _ Hr1 Hc1) by lia.
    erewrite call_stringify; last first.
    { replace (S (length h1)) with (length (h1 ++ [constructor]))
        by (rewrite length_app; simpl; lia).
      apply combined_lookup_new. }
    simpl. unfold s1. rewrite !string_app_assoc.
    replace (result (if decide (b = c) then constructor else bc))
      with (second_text b c bc)
      by (unfold second_text; by destruct (decide (b = c))).
    done.
  - unfold nested_right, bind.
    rewrite (facade_combine_spec _ _ _ _ _ _ Hb Hc).
    set (s1 := result bb +:+ " " +:+ c2 +:+ " " +:+ second_text b c bc).
    set (h1 := combined (h ++ [constructor]) b c s1).
    assert (h1 !! S (length h) = Some (set_result s1 constructor)) as Hr1
      by (rewrite <- Hlen; apply combined_lookup_new).
    assert (h1 !! a = Some ba) as Ha1.
    { unfold h1. rewrite combined_lookup_other by (done || lia).
      by rewrite lookup_app_l. }
    rewrite (facade_combine_distinct _ _ _ _ _ _ Ha1 Hr1) by lia.
    erewrite call_stringify; last first.
    { replace (S (length h1)) with (length (h1 ++ [constructor]))
        by (rewrite length_app; simpl; lia).
      apply combined_lookup_new. }
    done.
  - intros Hbc. unfold second_text. by rewrite decide_False.
Qed.

Lemma nested_combine_distinct_witness :
  ∃ s hl hr,
    nested_left 0 "+" 1 "~" 2
      [state_of "" [(Element, "x")]; state_of "" [(Element, "y")];
       state_of "" [(Element, "z")]] = Some (Normal s, hl) ∧
    nested_right 0 "+" 1 "~" 2
      [state_of "" [(Element, "x")]; state_of "" [(Element, "y")];
       state_of "" [(Element, "z")]] = Some (Normal s, hr) ∧
    s = "x + y ~ z" ∧
    (1 ≠ 2 → s = "x + y ~ z").
Proof.
  exact (nested_combine_distinct 0 1 2 "+" "~"
           [state_of "" [(Element, "x")]; state_of "" [(Element, "y")];
            state_of "" [(Element, "z")]]
           _ _ _ eq_refl eq_refl eq_refl
           (Nat.neq_0_succ 0) (Nat.neq_0_succ 1)).
Defined.

(** C8, as the claim has it, fails when [a] and [c] are one instance:
    with [a = builder.element('x')] and [b = builder.element('y')],
    [combine(combine(a, '+', b), '~', a).stringify()] is [x + y ~ ], and
    [combine(a, '+', combine(b, '~', a)).stringify()] is [ + y ~ x],
    because the first [combine] to run has finalised [a]. *)
Lemma nested_combine_aliased :
  (cssSelectorBuilder.element "x" ;; cssSelectorBuilder.element "y")%prog []
    = Some (Normal 1,
            [state_of "" [(Element, "x")]; state_of "" [(Element, "y")]]) ∧
  fst <$> nested_left 0 "+" 1 "~" 0
            [state_of "" [(Element, "x")]; state_of "" [(Element, "y")]]
    = Some (Normal "x + y ~ ") ∧
  fst <$> nested_right 0 "+" 1 "~" 0
            [state_of "" [(Element, "x")]; state_of "" [(Element, "y")]]
    = Some (Normal " + y ~ x") ∧
  ¬ (∀ (h : heap) (a b c : loc) (c1 c2 : string),
       is_Some (h !! a) → is_Some (h !! b) → is_Some (h !! c) →
       fst <$> nested_left a c1 b c2 c h = fst <$> nested_right a c1 b c2 c h).
Proof.
  split_and!; try done.
  intros Hall.
  specialize (Hall [state_of "" [(Element, "x")]; state_of "" [(Element, "y")]]
                0 1 0 "+" "~").
  by specialize (Hall ltac:(by eexists) ltac:(by eexists) ltac:(by eexists)).
Qed.

(** C9.  The instance [combine] returns holds the combined string (the
    first argument's text, a space, the combinator, a space, and the
    second argument's text, empty when the two arguments are one
    instance) and is otherwise a new one: last rank 0, no flag set.  A
    chain of fragment calls on it returns or throws as it does on a new
    instance, and leaves the same state but for the text, which is the
    combined string followed by what the chain builds on a new instance;
    each call that returns has added its own text at the end.  Through
    the returned reference, a chain that respects the order and the
    singletons returns, and [stringify()] then gives the combined string
    followed by the texts of the calls. *)
Theorem combined_accepts_appends (this l1 l2 : loc) (c : string) (h : heap)
    b1 b2
    (H1 : h !! l1 = Some b1) (H2 : h !! l2 = Some b2) :
  let s := result b1 +:+ " " +:+ c +:+ " " +:+ second_text l1 l2 b2 in
  let r := length h in
  let h' := combined h l1 l2 s in
  combine this l1 c l2 h = Some (Normal r, h') ∧
  h' !! r = Some (set_result s constructor) ∧
  (l1 ≠ l2 → s = result b1 +:+ " " +:+ c +:+ " " +:+ result b2) ∧
  previousOrder (set_result s constructor) = 0 ∧
  (∀ m, used m (set_result s constructor) = used m constructor) ∧
  (∀ calls,
     CssSelectorBuilder.chain calls (set_result s constructor) =
       ((CssSelectorBuilder.chain calls constructor).1,
        set_result
          (s +:+ result (CssSelectorBuilder.chain calls constructor).2)
          (CssSelectorBuilder.chain calls constructor).2)) ∧
  (∀ m value this1,
     append m value (set_result s constructor) = (Normal tt, this1) →
     result this1 = s +:+ fragment m value) ∧
  (∀ calls, respects calls →
     Store.chain r calls h' =
       Some (Normal r, <[r:=state_of s calls]> h') ∧
     call r stringify (<[r:=state_of s calls]> h') =
       Some (Normal (s +:+ text calls), <[r:=constructor]> h')).
Proof.
  intros s r h'.
  assert (h' !! r = Some (set_result s constructor)) as Hr
    by apply combined_lookup_new.
  split; [by apply (combine_spec _ _ _ _ _ b1 b2)|].
  split_and!; try done.
  - intros Hne. unfold s, second_text. by rewrite decide_False.
  - intros calls. rewrite <- (chain_set_result s calls constructor).
    change (result constructor) with "". by rewrite string_app_nil_r.
  - intros m value this1 Happ. by apply append_returned_result in Happ.
  - intros calls Hcalls.
    pose proof (lookup_lt_Some _ _ _ Hr) as Hlt. split.
    + rewrite (store_chain _ _ _ _ Hr).
      rewrite <- state_of_nil. by rewrite (chain_state_of s calls Hcalls).
    + erewrite call_stringify by (by apply list_lookup_insert_eq).
      by rewrite list_insert_insert_eq.
Qed.

Lemma combined_accepts_appends_witness :
  combine 0 0 ">" 1 [state_of "" [(Id, "main")]; state_of "" [(Class, "x")]]
    = Some (Normal 2,
            [constructor; constructor; set_result "#main > .x" constructor]) ∧
  Store.chain 2 [(Element, "a"); (Class, "b")]
    [constructor; constructor; set_result "#main > .x" constructor]
    = Some (Normal 2,
            [constructor; constructor;
             state_of "#main > .x" [(Element, "a"); (Class, "b")]]) ∧
  call 2 stringify
    [constructor; constructor;
     state_of "#main > .x" [(Element, "a"); (Class, "b")]]
    = Some (Normal "#main > .xa.b", [constructor; constructor; constructor]).
Proof.
  destruct (combined_accepts_appends 0 0 1 ">"
              [state_of "" [(Id, "main")]; state_of "" [(Class, "x")]]
              _ _ eq_refl eq_refl)
    as (Hcombine & _ & _ & _ & _ & _ & _ & Hchain).
  split; [exact Hcombine|].
  exact (Hchain [(Element, "a"); (Class, "b")]
           ltac:(by apply (bool_decide_unpack _))).
Defined.

End builder_claims.


(** * Beyond the builder: the object helpers *)

Section object_facts.
Import Objects.
Local Open Scope Z_scope.

Lemma has_own {V} key (obj : gmap string V) :
  is_Some (obj !! key) → has key obj = true.
Proof.
  intros Hkey. unfold has. by rewrite bool_decide_true.
Qed.

Lemma has_false {V} key (obj : gmap string V) :
  has key obj = false ↔ obj !! key = None ∧ inherited key = false.
Proof.
  unfold has. rewrite orb_false_iff, bool_decide_eq_false.
  by rewrite eq_None_not_Some.
Qed.

Lemma removeProperties_fold_lookup {V} (obj newObj : gmap string V) keys k :
  (∀ k', obj !! k' = None → newObj !! k' = None) →
  foldl (λ newObj el, if has el obj then delete el newObj else newObj)
    newObj keys !! k =
    if decide (k ∈ keys) then None else newObj !! k.
Proof.
  revert newObj. induction keys as [|el keys IH]; intros newObj Hsub.
  { rewrite decide_False; [done | apply not_elem_of_nil]. }
  cbn [foldl]. rewrite IH; last first.
  { intros k' Hk'. destruct (has el obj); [|by apply Hsub].
    destruct (decide (k' = el)) as [->|Hne].
    - apply lookup_delete_eq.
    - rewrite lookup_delete_ne by done. by apply Hsub. }
  destruct (decide (k ∈ keys)) as [Hk|Hk].
  { rewrite decide_True; [done | by right]. }
  destruct (decide (k = el)) as [->|Hne].
  - rewrite decide_True by (by left).
    destruct (has el obj) eqn:Hhas; [apply lookup_delete_eq|].
    apply has_false in Hhas as [Hnone _]. by apply Hsub.
  - rewrite decide_False
      by (intros [?|?]%elem_of_cons; done).
    destruct (has el obj); [by rewrite lookup_delete_ne | done].
Qed.

Lemma removeProperties_lookup {V} (obj : gmap string V) keys k :
  removeProperties obj keys !! k =
    if decide (k ∈ keys) then None else obj !! k.
Proof. unfold removeProperties. by apply removeProperties_fold_lookup. Qed.

(** X4.  The object [removeProperties] returns has none of the listed
    keys and, for every other key, what the argument has; so it is a part
    of the argument, and with no key listed it is the argument. *)
Theorem removeProperties_removes {V} (obj : gmap string V)
    (keys : list string) (k : string) :
  removeProperties obj keys !! k =
    (if decide (k ∈ keys) then None else obj !! k) ∧
  removeProperties obj keys ⊆ obj ∧
  removeProperties obj [] = obj.
Proof.
  split_and!; [apply removeProperties_lookup| |done].
  apply map_subseteq_spec. intros k' v.
  rewrite removeProperties_lookup. by destruct (decide (k' ∈ keys)).
Qed.

(** X5.  Keys the object does not have are passed over: when it has none
    of the listed keys, the result is the object itself.  Two removals in
    a row are the removal of both lists of keys at once. *)
Theorem removeProperties_compose {V} (obj : gmap string V)
    (keys : list string)
    (Hkeys : Forall (λ k, obj !! k = None) keys) :
  removeProperties obj keys = obj ∧
  ∀ keys1 keys2,
    removeProperties (removeProperties obj keys1) keys2 =
      removeProperties obj (keys1 ++ keys2).
Proof.
  assert (∀ keys1 keys2,
    removeProperties (removeProperties obj keys1) keys2 =
      removeProperties obj (keys1 ++ keys2)) as Hcomp.
  { intros keys1 keys2. apply map_eq. intros k.
    rewrite !removeProperties_lookup.
    destruct (decide (k ∈ keys1)) as [H1|H1], (decide (k ∈ keys2)) as [H2|H2];
      (rewrite decide_True by (apply elem_of_app; auto); done) ||
      (rewrite decide_False by (rewrite elem_of_app; tauto); done). }
  split; [|apply Hcomp].
  apply map_eq. intros k. rewrite removeProperties_lookup.
  destruct (decide (k ∈ keys)) as [Hk|Hk]; [|done].
  rewrite Forall_forall in Hkeys. by rewrite (Hkeys k Hk).
Qed.

Lemma removeProperties_compose_witness :
  Forall (λ k, ({["a" := 1]} : gmap string Z) !! k = None) ["d"; "e"] ∧
  removeProperties ({["a" := 1]} : gmap string Z) ["d"; "e"] = {["a" := 1]}.
Proof.
  assert (Forall (λ k, ({["a" := 1]} : gmap string Z) !! k = None) ["d"; "e"])
    as Hkeys by (by repeat constructor).
  split; [exact Hkeys|].
  exact (proj1 (removeProperties_compose _ ["d"; "e"] Hkeys)).
Defined.

Lemma keys_length {V} (obj : gmap string V) : length (keys obj) = size obj.
Proof. unfold keys. by rewrite length_fmap, length_map_to_list. Qed.

Lemma elem_of_keys {V} (obj : gmap string V) k :
  k ∈ keys obj ↔ is_Some (obj !! k).
Proof.
  unfold keys. rewrite list_elem_of_fmap. split.
  - intros ([k' v] & -> & Hkv%elem_of_map_to_list). by eexists.
  - intros [v Hv]. exists (k, v). by rewrite elem_of_map_to_list.
Qed.


Lemma compareObjects_true obj1 obj2 :
  compareObjects obj1 obj2 = true ↔
    size obj1 = size obj2 ∧
    ∀ k, is_Some (obj1 !! k) → get obj1 k = get obj2 k.
Proof.
  unfold compareObjects.
  rewrite andb_true_iff, bool_decide_eq_true, !keys_length.
  rewrite forallb_forall. split; intros [Hsize Hall]; (split; [done|]).
  - intros k Hk%elem_of_keys%list_elem_of_In. specialize (Hall k Hk).
    by apply bool_decide_eq_true in Hall.
  - intros k Hk%list_elem_of_In%elem_of_keys. by apply bool_decide_eq_true, Hall.
Qed.

(** X6.  When no property of the first object holds [undefined],
    [compareObjects] answers true exactly when the two objects have the
    same properties with the same values. *)
Theorem compareObjects_equal (obj1 obj2 : gmap string value)
    (Hdefined : ∀ k, obj1 !! k ≠ Some Undefined) :
  compareObjects obj1 obj2 = true ↔ obj1 = obj2.
Proof.
  rewrite compareObjects_true. split.
  - intros [Hsize Hall]. apply map_subseteq_size_eq; [|lia].
    apply map_subseteq_spec. intros k v Hk.
    specialize (Hall k (mk_is_Some _ _ Hk)). unfold get in Hall.
    rewrite Hk in Hall.
    destruct (obj2 !! k) as [v2|]; [by injection Hall as ->|].
    destruct (inherited k); [done|]. injection Hall as ->.
    by destruct (Hdefined k).
  - by intros ->.
Qed.

Lemma compareObjects_equal_witness :
  (∀ k, ({["a" := Number 1]} : gmap string value) !! k ≠ Some Undefined) ∧
  (compareObjects {["a" := Number 1]} {["a" := Number 1]} = true ↔
   ({["a" := Number 1]} : gmap string value) = {["a" := Number 1]}).
Proof.
  assert (∀ k, ({["a" := Number 1]} : gmap string value) !! k
               ≠ Some Undefined) as Hdefined.
  { intros k. destruct (decide (k = "a")) as [->|Hne].
    - by rewrite lookup_singleton_eq.
    - by rewrite lookup_singleton_ne. }
  split; [exact Hdefined|].
  exact (compareObjects_equal _ _ Hdefined).
Defined.

(** X7.  A property that holds [undefined] is compared with what the
    other object reads under its name.  Under a name [Object.prototype]
    does not define that is [undefined] again, so an object with one such
    property is answered equal to an object with one property of another
    name; under a name [Object.prototype] defines it is the inherited
    function or object, and the answer is false.  The other way round the
    answer is false in both cases. *)
Theorem compareObjects_undefined (k1 k2 : string) (v : value)
    (Hkeys : k1 ≠ k2) (Hv : v ≠ Undefined) :
  compareObjects {[k1 := Undefined]} {[k2 := v]} = negb (inherited k1) ∧
  compareObjects {[k2 := v]} {[k1 := Undefined]} = false.
Proof.
  split.
  - destruct (inherited k1) eqn:Hk1; simpl.
    + apply not_true_is_false. rewrite compareObjects_true.
      intros [_ Hall]. specialize (Hall k1). unfold get in Hall.
      rewrite lookup_singleton_eq, lookup_singleton_ne, Hk1 in Hall
        by done.
      discriminate Hall. by eexists.
    + apply compareObjects_true. rewrite !map_size_singleton.
      split; [done|].
      intros k [x Hk]. apply lookup_singleton_Some in Hk as [<- <-].
      unfold get. by rewrite lookup_singleton_eq, lookup_singleton_ne, Hk1.
  - apply not_true_is_false. rewrite compareObjects_true.
    intros [_ Hall]. specialize (Hall k2). unfold get in Hall.
    rewrite lookup_singleton_eq, lookup_singleton_ne in Hall by done.
    destruct (inherited k2).
    + discriminate Hall. by eexists.
    + apply Hv. assert (Value v = Value Undefined) as [= ->]; [|done].
      apply Hall. by eexists.
Qed.

Lemma compareObjects_undefined_witness :
  "a" ≠ "b" ∧ Number 1 ≠ Undefined ∧
  compareObjects {["a" := Undefined]} {["b" := Number 1]} = true ∧
  compareObjects {["b" := Number 1]} {["a" := Undefined]} = false.
Proof.
  split; [done|]. split; [done|].
  exact (compareObjects_undefined "a" "b" (Number 1)
           ltac:(done) ltac:(done)).
Defined.

Lemma isEmptyObject_true {V} (obj : gmap string V) :
  isEmptyObject obj = true ↔ obj = ∅.
Proof.
  unfold isEmptyObject.
  by rewrite bool_decide_eq_true, keys_length, map_size_empty_iff.
Qed.

Lemma sum_abs_app l1 l2 :
  Double.sum_abs (l1 ++ l2) = Double.sum_abs l1 + Double.sum_abs l2.
Proof. unfold Double.sum_abs. induction l1; simpl; lia. Qed.

Lemma sum_le_sum_abs l : Z.abs (sum l) ≤ Double.sum_abs l.
Proof. unfold sum, Double.sum_abs. induction l; simpl; lia. Qed.

Lemma elem_sum_abs x l : x ∈ l → Z.abs x ≤ Double.sum_abs l.
Proof.
  induction 1 as [x l|x y l _ IH];
    change (Double.sum_abs (?a :: l)) with (Z.abs a + Double.sum_abs l);
    pose proof (sum_abs_nonneg l); lia.
Qed.

Lemma sum_app l1 l2 : sum (l1 ++ l2) = sum l1 + sum l2.
Proof. unfold sum. induction l1 as [|x l1 IH]; simpl; lia. Qed.

Lemma sum_perm l1 l2 : l1 ≡ₚ l2 → sum l1 = sum l2.
Proof. unfold sum. induction 1; simpl; lia. Qed.

(** Under a name [Object.prototype] does not define, both branches of
    the merge of one entry are one write. *)
Lemma mergeObjects_entry_plain newObj key value :
  inherited key = false →
  mergeObjects_entry newObj (key, value) =
    Some (<[key:=match newObj !! key with
                 | Some old => Double.add old value
                 | None => Double.Finite value
                 end]> newObj).
Proof.
  intros Hkey. unfold mergeObjects_entry, has. rewrite Hkey, orb_false_r.
  destruct (newObj !! key) as [old|] eqn:Hold.
  - by rewrite bool_decide_true.
  - rewrite bool_decide_false; [done|]. by intros [? [=]].
Qed.

Lemma merge_entries_lookup (obj : gmap string Z) newObj :
  plain obj →
  ∃ m, foldl mergeObjects_step (Some newObj) (entries obj) = Some m ∧
       ∀ k, m !! k =
              match obj !! k with
              | Some v => Some (match newObj !! k with
                                | Some old => Double.add old v
                                | None => Double.Finite v
                                end)
              | None => newObj !! k
              end.
Proof.
  intros Hplain. unfold entries.
  assert (∀ es newObj, NoDup es.*1 →
    Forall (λ e : string * Z, inherited e.1 = false) es →
    ∃ m, foldl mergeObjects_step (Some newObj) es = Some m ∧
         ∀ k, m !! k =
                match (list_to_map es : gmap string Z) !! k with
                | Some v => Some (match newObj !! k with
                                  | Some old => Double.add old v
                                  | None => Double.Finite v
                                  end)
                | None => newObj !! k
                end) as Hes.
  { clear. intros es.
    induction es as [|[key value] es IH]; intros newObj Hnd Hkeys.
    { exists newObj. split; [done|]. intros k.
      cbn [list_to_map foldr]. by rewrite lookup_empty. }
    rewrite fmap_cons in Hnd. apply NoDup_cons in Hnd as [Hkey Hnd].
    apply Forall_cons in Hkeys as [Hk Hkeys]. cbn [fst] in Hk.
    cbn [foldl mergeObjects_step]. rewrite mergeObjects_entry_plain by done.
    match goal with
    | |- ∃ m, foldl _ (Some ?n) _ = _ ∧ _ =>
        destruct (IH n Hnd Hkeys) as (m & -> & Hm)
    end.
    exists m. split; [done|].
    intros k. rewrite Hm. cbn [list_to_map foldr fst snd uncurry].
    destruct (decide (k = key)) as [->|Hne].
    - rewrite (not_elem_of_list_to_map_1 _ key) by done.
      by rewrite !lookup_insert_eq.
    - by rewrite !lookup_insert_ne. }
  destruct (Hes (map_to_list obj) newObj) as (m & Hm & Hlookup).
  - apply NoDup_fst_map_to_list.
  - apply map_Forall_to_list in Hplain.
    eapply Forall_impl; [exact Hplain|]. by intros [k v].
  - exists m. split; [done|]. intros k.
    by rewrite Hlookup, list_to_map_to_list.
Qed.

Lemma mergeObjects_snoc objects obj :
  mergeObjects (objects ++ [obj]) =
    foldl mergeObjects_step (mergeObjects objects) (entries obj).
Proof. unfold mergeObjects. by rewrite foldl_snoc. Qed.

Lemma accumulated_snoc values value :
  accumulated (values ++ [value]) =
    Some (match accumulated values with
          | Some old => Double.add old value
          | None => Double.Finite value
          end).
Proof. unfold accumulated. by rewrite foldl_snoc. Qed.

Lemma accumulated_None values : accumulated values = None ↔ values = [].
Proof.
  destruct values as [|v values] using rev_ind; [done|].
  rewrite accumulated_snoc. split; [done|].
  intros Hnil. by apply app_nil in Hnil as [_ [=]].
Qed.

(** Within 2^53 nothing is rounded: what is stored is the sum. *)
Lemma accumulated_exact values :
  Double.sum_abs values ≤ 2 ^ 53 →
  accumulated values =
    match values with
    | [] => None
    | _ => Some (Double.Finite (sum values))
    end.
Proof.
  induction values as [|v values IH] using rev_ind; intros Hbound; [done|].
  rewrite sum_abs_app in Hbound.
  change (Double.sum_abs [v]) with (Z.abs v + 0) in Hbound.
  pose proof (sum_abs_nonneg values) as Hnonneg.
  pose proof (sum_le_sum_abs values) as Hsum.
  rewrite accumulated_snoc, IH by lia.
  assert (Some (match values with
                | [] => Double.Finite v
                | _ => Double.add (Double.Finite (sum values)) v
                end)
          = Some (Double.Finite (sum (values ++ [v])))) as Hfinite.
  { f_equal. rewrite sum_app. change (sum [v]) with (v + 0).
    destruct values as [|v0 values'].
    - f_equal. change (sum []) with 0. lia.
    - unfold Double.add. rewrite of_Z_exact by lia. f_equal. lia. }
  destruct values; exact Hfinite.
Qed.

Lemma values_of_snoc key objects (obj : gmap string Z) :
  values_of key (objects ++ [obj]) =
    values_of key objects ++ option_list (obj !! key).
Proof.
  unfold values_of. rewrite omap_app. cbn [omap list_omap].
  by destruct (obj !! key).
Qed.

(** The merge of objects with no key that [Object.prototype] defines. *)
Lemma mergeObjects_plain objects :
  Forall plain objects →
  ∃ merged, mergeObjects objects = Some merged ∧
            ∀ key, merged !! key = accumulated (values_of key objects).
Proof.
  induction objects as [|obj objects IH] using rev_ind; intros Hplain.
  { exists ∅. split; [done|]. intros key. by rewrite lookup_empty. }
  apply Forall_app in Hplain as [Hobjects Hobj].
  rewrite Forall_singleton in Hobj.
  destruct (IH Hobjects) as (m0 & Hm0 & Hlookup0).
  rewrite mergeObjects_snoc, Hm0.
  destruct (merge_entries_lookup obj m0 Hobj) as (m & Hm & Hlookup).
  exists m. split; [done|]. intros key.
  rewrite Hlookup, Hlookup0, values_of_snoc.
  destruct (obj !! key) as [v|]; simpl.
  - by rewrite accumulated_snoc.
  - by rewrite app_nil_r.
Qed.

Lemma values_of_nil_iff key objects :
  values_of key objects = [] ↔ Forall (λ obj, obj !! key = None) objects.
Proof.
  unfold values_of. induction objects as [|obj objects IH]; simpl.
  { split; [constructor | done]. }
  rewrite Forall_cons. destruct (obj !! key) as [v|]; simpl.
  - split; [done | by intros [[=] _]].
  - rewrite IH. split; [intros Hall; by split | by intros [_ Hall]].
Qed.

Lemma values_of_bound key objects :
  Double.sum_abs (values_of key objects) ≤ Double.sum_abs (all_values objects).
Proof.
  unfold values_of, all_values.
  induction objects as [|obj objects IH]; [done|].
  rewrite bind_cons, sum_abs_app. cbn [omap list_omap].
  pose proof (sum_abs_nonneg (map_to_list obj).*2) as Hnonneg.
  destruct (obj !! key) as [v|] eqn:Hv; [|lia].
  change (Double.sum_abs (v :: ?l)) with (Z.abs v + Double.sum_abs l).
  assert (Z.abs v ≤ Double.sum_abs (map_to_list obj).*2); [|lia].
  apply elem_sum_abs, list_elem_of_fmap. exists (key, v).
  split; [done|]. by apply elem_of_map_to_list.
Qed.

Lemma all_values_perm objects objects' :
  objects ≡ₚ objects' → all_values objects ≡ₚ all_values objects'.
Proof. unfold all_values. by intros ->. Qed.

Lemma values_of_perm key objects objects' :
  objects ≡ₚ objects' → values_of key objects ≡ₚ values_of key objects'.
Proof. unfold values_of. by intros ->. Qed.

Lemma values_of_Exists key objects :
  values_of key objects ≠ [] ↔ Exists (λ obj, is_Some (obj !! key)) objects.
Proof.
  rewrite values_of_nil_iff. split.
  - intros Hnot. apply not_Forall_Exists in Hnot; [|apply _].
    eapply Exists_impl; [exact Hnot|].
    intros obj Hobj. by apply not_eq_None_Some.
  - intros Hex Hall. apply Exists_exists in Hex as (obj & Hobj & Hkey).
    rewrite Forall_forall in Hall. rewrite (Hall obj Hobj) in Hkey.
    by destruct Hkey.
Qed.

(** X1.  For objects whose keys are not names of [Object.prototype] and
    whose values are integers, [mergeObjects] returns an object that has
    a key exactly when some object of the array has it; it holds for the
    key the values the objects hold for it, added up from left to right
    as doubles, which is their sum while their absolute values add up to
    at most 2^53.  An empty array gives the empty object. *)
Theorem mergeObjects_sums (objects : list (gmap string Z))
    (Hplain : Forall plain objects) (Hnum : Forall numeric objects) :
  mergeObjects [] = Some ∅ ∧
  ∃ merged,
    mergeObjects objects = Some merged ∧
    (∀ key, is_Some (merged !! key) ↔
              Exists (λ obj, is_Some (obj !! key)) objects) ∧
    (∀ key, merged !! key = accumulated (values_of key objects)) ∧
    (∀ key, Double.sum_abs (values_of key objects) ≤ 2 ^ 53 →
            merged !! key =
              match values_of key objects with
              | [] => None
              | vs => Some (Double.Finite (sum vs))
              end).
Proof.
  split; [done|].
  destruct (mergeObjects_plain objects Hplain) as (merged & Hmerged & Hlookup).
  exists merged. split_and!; [done| |done|].
  - intros key. rewrite Hlookup, <-values_of_Exists, <-not_eq_None_Some.
    by rewrite accumulated_None.
  - intros key Hbound. rewrite Hlookup, accumulated_exact by done.
    by destruct (values_of key objects).
Qed.

Lemma mergeObjects_sums_witness :
  ∃ merged,
    mergeObjects [{["a" := 1; "b" := 2]}; {["b" := 3; "c" := 5]}] =
      Some merged ∧
    merged !! "a" = Some (Double.Finite 1) ∧
    merged !! "b" = Some (Double.Finite 5) ∧
    merged !! "c" = Some (Double.Finite 5) ∧
    merged !! "d" = None.
Proof.
  pose (objects :=
          [({["a" := 1; "b" := 2]} : gmap string Z); {["b" := 3; "c" := 5]}]).
  assert (Forall plain objects) as Hplain
    by (apply (bool_decide_unpack _); vm_compute; reflexivity).
  assert (Forall numeric objects) as Hnum
    by (apply (bool_decide_unpack _); vm_compute; reflexivity).
  destruct (mergeObjects_sums objects Hplain Hnum)
    as (_ & merged & Hmerged & _ & _ & Hsum).
  assert (∀ key, Double.sum_abs (values_of key objects) ≤ 2 ^ 53) as Hbound.
  { intros key. etrans; [apply values_of_bound|].
    apply (bool_decide_unpack _). vm_compute. reflexivity. }
  exists merged. split; [exact Hmerged|].
  rewrite !Hsum by apply Hbound. split_and!; reflexivity.
Defined.

(** X2.  For objects whose keys are not names of [Object.prototype] and
    whose values are integers with absolute values that add up to at
    most 2^53, the merged object does not depend on the order of the
    objects in the array. *)
Theorem mergeObjects_perm (objects objects' : list (gmap string Z))
    (Hplain : Forall plain objects)
    (Hbound : Double.sum_abs (all_values objects) ≤ 2 ^ 53)
    (Hperm : objects ≡ₚ objects') :
  ∃ merged,
    mergeObjects objects = Some merged ∧ mergeObjects objects' = Some merged.
Proof.
  assert (Forall plain objects') as Hplain' by (by rewrite <-Hperm).
  assert (Double.sum_abs (all_values objects') ≤ 2 ^ 53) as Hbound'.
  { by rewrite <-(sum_abs_perm _ _ (all_values_perm _ _ Hperm)). }
  destruct (mergeObjects_plain objects Hplain) as (merged & Hmerged & Hlookup).
  destruct (mergeObjects_plain objects' Hplain')
    as (merged' & Hmerged' & Hlookup').
  exists merged. split; [done|]. rewrite Hmerged'. f_equal.
  apply map_eq. intros key. rewrite Hlookup, Hlookup'.
  pose proof (values_of_bound key objects) as Hkey.
  pose proof (values_of_bound key objects') as Hkey'.
  rewrite !accumulated_exact by lia.
  pose proof (values_of_perm key _ _ Hperm) as Hvs.
  destruct (values_of key objects) as [|v vs] eqn:Hv,
    (values_of key objects') as [|v' vs'] eqn:Hv'.
  - done.
  - by apply Permutation_nil_cons in Hvs.
  - symmetry in Hvs. by apply Permutation_nil_cons in Hvs.
  - do 2 f_equal. symmetry. by apply sum_perm.
Qed.

Lemma mergeObjects_perm_witness :
  ∃ merged,
    mergeObjects [{["a" := 1; "b" := 2]}; {["b" := 3; "c" := 5]}] =
      Some merged ∧
    mergeObjects [{["b" := 3; "c" := 5]}; {["a" := 1; "b" := 2]}] =
      Some merged.
Proof.
  pose (objects :=
          [({["a" := 1; "b" := 2]} : gmap string Z); {["b" := 3; "c" := 5]}]).
  assert (Forall plain objects) as Hplain
    by (apply (bool_decide_unpack _); vm_compute; reflexivity).
  assert (Double.sum_abs (all_values objects) ≤ 2 ^ 53) as Hbound
    by (apply (bool_decide_unpack _); vm_compute; reflexivity).
  exact (mergeObjects_perm objects _ Hplain Hbound (perm_swap _ _ [])).
Defined.

(** Beyond 2^53 the order shows: 2^53 + 1 is rounded to 2^53. *)
Lemma mergeObjects_rounded :
  mergeObjects [{["a" := 2 ^ 53]}; {["a" := 1]}; {["a" := - 2 ^ 53]}] =
    Some {["a" := Double.Finite 0]} ∧
  mergeObjects [{["a" := 2 ^ 53]}; {["a" := - 2 ^ 53]}; {["a" := 1]}] =
    Some {["a" := Double.Finite 1]}.
Proof. split; vm_compute; reflexivity. Qed.

(** X3.  For objects whose keys are not names of [Object.prototype] and
    whose values are integers: merging a single object copies it, and
    merging an array is the same as merging its first part and then
    merging the result, when it holds no infinity, with the rest. *)
Theorem mergeObjects_compose (obj merged1 : gmap string Z)
    (objects1 objects2 : list (gmap string Z))
    (Hobj : plain obj) (Hnum : numeric obj)
    (Hplain : Forall plain (objects1 ++ objects2))
    (Hnums : Forall numeric (objects1 ++ objects2))
    (Hmerged1 : mergeObjects objects1 = Some (Double.Finite <$> merged1)) :
  mergeObjects [obj] = Some (Double.Finite <$> obj) ∧
  ∃ merged,
    mergeObjects (objects1 ++ objects2) = Some merged ∧
    mergeObjects (merged1 :: objects2) = Some merged.
Proof.
  assert (∀ o : gmap string Z,
            plain o → mergeObjects [o] = Some (Double.Finite <$> o)) as Hone.
  { intros o Ho.
    destruct (merge_entries_lookup o ∅ Ho) as (m & Hm & Hlookup).
    unfold mergeObjects. cbn [foldl]. rewrite Hm. f_equal.
    apply map_eq. intros key. rewrite Hlookup, lookup_fmap, lookup_empty.
    by destruct (o !! key). }
  split; [by apply Hone|].
  apply Forall_app in Hplain as [Hplain1 Hplain2].
  assert (plain merged1) as Hplain_merged.
  { destruct (mergeObjects_plain objects1 Hplain1) as (m & Hm & Hlookup).
    rewrite Hmerged1 in Hm. injection Hm as <-.
    intros key value Hkey.
    assert (values_of key objects1 ≠ []) as Hvs.
    { rewrite <-accumulated_None, <-Hlookup, lookup_fmap, Hkey. done. }
    apply values_of_Exists, Exists_exists in Hvs as (o & Ho & [v Hv]).
    rewrite Forall_forall in Hplain1. exact (Hplain1 o Ho key v Hv). }
  assert (mergeObjects (objects1 ++ objects2) =
            mergeObjects (merged1 :: objects2)) as Heq.
  { transitivity
      (foldl (λ newObj o, foldl mergeObjects_step newObj (entries o))
         (mergeObjects [merged1]) objects2); [|done].
    rewrite (Hone merged1 Hplain_merged), <-Hmerged1.
    unfold mergeObjects. by rewrite foldl_app. }
  destruct (mergeObjects_plain (merged1 :: objects2)) as (merged & Hmerged & _).
  { by constructor. }
  exists merged. by rewrite Heq.
Qed.

Lemma mergeObjects_compose_witness :
  mergeObjects [{["a" := 1; "b" := 2]}] =
    Some {["a" := Double.Finite 1; "b" := Double.Finite 2]} ∧
  ∃ merged,
    mergeObjects ([{["a" := 1]}; {["a" := 2; "b" := 2]}] ++ [{["b" := 3]}]) =
      Some merged ∧
    mergeObjects [{["a" := 3; "b" := 2]}; {["b" := 3]}] = Some merged.
Proof.
  pose (obj := ({["a" := 1; "b" := 2]} : gmap string Z)).
  pose (objects1 := [({["a" := 1]} : gmap string Z); {["a" := 2; "b" := 2]}]).
  pose (objects2 := [({["b" := 3]} : gmap string Z)]).
  assert (plain obj) as Hobj
    by (apply (bool_decide_unpack _); vm_compute; reflexivity).
  assert (numeric obj) as Hnum
    by (apply (bool_decide_unpack _); vm_compute; reflexivity).
  assert (Forall plain (objects1 ++ objects2)) as Hplain
    by (apply (bool_decide_unpack _); vm_compute; reflexivity).
  assert (Forall numeric (objects1 ++ objects2)) as Hnums
    by (apply (bool_decide_unpack _); vm_compute; reflexivity).
  assert (mergeObjects objects1 =
            Some (Double.Finite <$> ({["a" := 3; "b" := 2]} : gmap string Z)))
    as Hmerged1 by (vm_compute; reflexivity).
  destruct (mergeObjects_compose obj _ objects1 objects2
              Hobj Hnum Hplain Hnums Hmerged1) as [Hone Hmerged].
  split; [|exact Hmerged].
  etrans; [exact Hone|]. vm_compute. reflexivity.
Defined.

(** X8.  [isEmptyObject] on the results of the other helpers: for objects
    whose keys are not names of [Object.prototype] and whose values are
    integers, the merged object is empty exactly when every object of the
    array is; what [removeProperties] returns is empty exactly when every
    key of the object is listed; and [compareObjects] with the empty
    object as its second argument agrees with [isEmptyObject]. *)
Theorem isEmptyObject_results (objects : list (gmap string Z))
    (obj : gmap string value) (keys : list string)
    (Hplain : Forall plain objects) (Hnum : Forall numeric objects) :
  (∃ merged,
     mergeObjects objects = Some merged ∧
     (isEmptyObject merged = true ↔
        Forall (λ o, isEmptyObject o = true) objects)) ∧
  (isEmptyObject (removeProperties obj keys) = true ↔
     ∀ k, is_Some (obj !! k) → k ∈ keys) ∧
  compareObjects obj ∅ = isEmptyObject obj.
Proof.
  split_and!.
  - destruct (mergeObjects_plain objects Hplain)
      as (merged & Hmerged & Hlookup).
    exists merged. split; [done|].
    rewrite isEmptyObject_true, map_empty. split.
    + intros Hnone. apply Forall_forall. intros o Ho.
      apply isEmptyObject_true, map_empty. intros key.
      specialize (Hnone key).
      rewrite Hlookup, accumulated_None, values_of_nil_iff in Hnone.
      rewrite Forall_forall in Hnone. auto.
    + intros Hall key. rewrite Hlookup, accumulated_None.
      apply values_of_nil_iff. eapply Forall_impl; [exact Hall|].
      intros o ->%isEmptyObject_true. apply lookup_empty.
  - rewrite isEmptyObject_true, map_empty. split.
    + intros Hnone k Hk. specialize (Hnone k).
      rewrite removeProperties_lookup in Hnone.
      destruct (decide (k ∈ keys)); [done|].
      rewrite Hnone in Hk. by destruct Hk.
    + intros Hall k. rewrite removeProperties_lookup.
      destruct (decide (k ∈ keys)) as [|Hk]; [done|].
      apply eq_None_not_Some. intros Hsome. by apply Hk, Hall.
  - destruct (isEmptyObject obj) eqn:Hempty.
    + apply isEmptyObject_true in Hempty as ->. done.
    + apply not_true_is_false. rewrite compareObjects_true.
      intros [Hsize _]. rewrite map_size_empty in Hsize.
      apply map_size_empty_iff, isEmptyObject_true in Hsize. congruence.
Qed.

Lemma isEmptyObject_results_witness :
  (∃ merged,
     mergeObjects [∅; {["a" := 1]}] = Some merged ∧
     isEmptyObject merged = false) ∧
  isEmptyObject
    (removeProperties ({["a" := Number 1; "b" := Number 2]}) ["a"; "b"; "c"])
    = true ∧
  compareObjects {["a" := Number 1]} ∅ = false.
Proof.
  pose (objects := [(∅ : gmap string Z); {["a" := 1]}]).
  pose (obj := ({["a" := Number 1; "b" := Number 2]} : gmap string value)).
  assert (Forall plain objects) as Hplain
    by (apply (bool_decide_unpack _); vm_compute; reflexivity).
  assert (Forall numeric objects) as Hnum
    by (apply (bool_decide_unpack _); vm_compute; reflexivity).
  destruct (isEmptyObject_results objects obj ["a"; "b"; "c"] Hplain Hnum)
    as ((merged & Hmerged & Hempty) & Hremoved & _).
  split_and!.
  - exists merged. split; [exact Hmerged|].
    apply not_true_is_false. rewrite Hempty. intros Hall.
    apply Forall_cons in Hall as [_ Hall].
    apply Forall_cons in Hall as [Ha _]. discriminate Ha.
  - apply Hremoved. intros k Hk.
    destruct (decide (k = "a")) as [->|Ha]; [by left|].
    destruct (decide (k = "b")) as [->|Hb]; [right; by left|].
    unfold obj in Hk.
    rewrite lookup_insert_ne, lookup_singleton_ne in Hk by done.
    by destruct Hk.
  - reflexivity.
Defined.

End object_facts.

(** * Beyond the builder: group *)

Section group_facts.
Import Group.
Context {A K V : Type} `{EqDecision K}.
Implicit Types (map : list (K * list V)) (array : list A).

Lemma get_None (key : K) (m : list (K * list V)) :
  JsMap.get key m = None ↔ key ∉ m.*1.
Proof.
  induction m as [|[k v] m IH]; simpl.
  - split; [intros _; apply not_elem_of_nil | done].
  - rewrite not_elem_of_cons. destruct (decide (k = key)) as [->|Hne].
    + split; [done | by intros [? _]].
    + rewrite IH. split; [by intros ? | by intros [_ ?]].
Qed.

Lemma get_update (f : list V → list V) key k (m : list (K * list V)) :
  JsMap.get k (JsMap.update f key m) =
    if decide (k = key) then f <$> JsMap.get key m else JsMap.get k m.
Proof.
  induction m as [|[k0 v0] m IH]; simpl.
  - by destruct (decide (k = key)).
  - destruct (decide (k0 = key)) as [->|Hne]; simpl.
    + destruct (decide (key = k)) as [->|Hk].
      * by rewrite decide_True.
      * by rewrite decide_False.
    + destruct (decide (k0 = k)) as [->|Hk].
      * by rewrite decide_False.
      * apply IH.
Qed.

Lemma keys_update (f : list V → list V) key (m : list (K * list V)) :
  (JsMap.update f key m).*1 = m.*1.
Proof.
  induction m as [|[k0 v0] m IH]; [done|]. cbn [JsMap.update].
  destruct (decide (k0 = key)); [done|]. rewrite !fmap_cons. by rewrite IH.
Qed.

Lemma get_snoc key k (v : list V) (m : list (K * list V)) :
  JsMap.get k (m ++ [(key, v)]) =
    match JsMap.get k m with
    | Some x => Some x
    | None => if decide (key = k) then Some v else None
    end.
Proof.
  induction m as [|[k0 v0] m IH]; simpl; [done|].
  by destruct (decide (k0 = k)).
Qed.

Lemma has_true_iff key (m : list (K * list V)) :
  JsMap.has key m = true ↔ key ∈ m.*1.
Proof. unfold JsMap.has. apply bool_decide_eq_true. Qed.

Section selectors.
Variables (keySelector : A → K) (valueSelector : A → V).

Lemma group_step_get (m : list (K * list V)) obj k :
  JsMap.get k (group_step keySelector valueSelector m obj) =
    if decide (k = keySelector obj)
    then Some (default [] (JsMap.get k m) ++ [valueSelector obj])
    else JsMap.get k m.
Proof.
  unfold group_step. rewrite get_update.
  destruct (JsMap.has (keySelector obj) m) eqn:Hhas; simpl.
  - apply has_true_iff in Hhas.
    destruct (decide (k = keySelector obj)) as [->|]; [|done].
    destruct (JsMap.get (keySelector obj) m) eqn:Hget; [done|].
    by apply get_None in Hget.
  - assert (keySelector obj ∉ m.*1) as Hnot.
    { intros Hin%has_true_iff. congruence. }
    unfold JsMap.set. rewrite Hhas, !get_snoc.
    apply get_None in Hnot as Hget. rewrite Hget.
    rewrite (decide_True (P := keySelector obj = keySelector obj)) by done.
    destruct (decide (k = keySelector obj)) as [->|Hne].
    + by rewrite Hget.
    + destruct (JsMap.get k m); [done|].
      by rewrite decide_False by congruence.
Qed.

Lemma group_step_keys (m : list (K * list V)) obj :
  (group_step keySelector valueSelector m obj).*1 =
    if decide (keySelector obj ∈ m.*1) then m.*1
    else m.*1 ++ [keySelector obj].
Proof.
  unfold group_step. rewrite keys_update. unfold JsMap.set, JsMap.has.
  destruct (decide (keySelector obj ∈ m.*1)) as [Hin|Hnot].
  - by rewrite bool_decide_true.
  - rewrite bool_decide_false by done. simpl. by rewrite fmap_app.
Qed.

Lemma group_snoc array obj :
  group (array ++ [obj]) keySelector valueSelector =
    group_step keySelector valueSelector
      (group array keySelector valueSelector) obj.
Proof. unfold group. by rewrite foldl_snoc. Qed.

Lemma group_get array k :
  JsMap.get k (group array keySelector valueSelector) =
    if decide (k ∈ keySelector <$> array)
    then Some (valueSelector <$> filter (λ obj, keySelector obj = k) array)
    else None.
Proof.
  induction array as [|obj array IH] using rev_ind.
  { rewrite decide_False; [done | apply not_elem_of_nil]. }
  rewrite group_snoc, group_step_get, IH.
  rewrite fmap_app, filter_app, fmap_app. simpl.
  destruct (decide (k = keySelector obj)) as [->|Hne].
  - rewrite (decide_True (P := _ ∈ _ ++ _))
      by (apply elem_of_app; right; by apply list_elem_of_singleton).
    rewrite filter_cons_True by done. f_equal.
    destruct (decide (keySelector obj ∈ keySelector <$> array))
      as [Hin|Hnot]; simpl; [done|].
    assert (filter (λ o, keySelector o = keySelector obj) array = []) as ->;
      [|done].
    apply elem_of_nil_inv. intros o [Ho Hin]%list_elem_of_filter.
    apply Hnot. rewrite <- Ho. apply list_elem_of_fmap. eauto.
  - rewrite filter_cons_False by congruence.
    rewrite filter_nil, app_nil_r.
    destruct (decide (k ∈ keySelector <$> array)) as [Hin|Hnot].
    + rewrite decide_True; [done|]. apply elem_of_app. by left.
    + rewrite decide_False; [done|]. rewrite elem_of_app.
      intros [?|?%list_elem_of_singleton]; done.
Qed.

Lemma group_keys array :
  (group array keySelector valueSelector).*1 =
    reverse (remove_dups (reverse (keySelector <$> array))).
Proof.
  induction array as [|obj array IH] using rev_ind; [done|].
  rewrite group_snoc, group_step_keys, IH, fmap_app, reverse_app.
  simpl. change (reverse [keySelector obj]) with [keySelector obj]. simpl.
  destruct (decide_rel (∈) (keySelector obj) (reverse (keySelector <$> array)))
    as [Hin|Hnot].
  - rewrite decide_True; [done|].
    by rewrite elem_of_reverse, elem_of_remove_dups.
  - rewrite decide_False by (by rewrite elem_of_reverse, elem_of_remove_dups).
    by rewrite reverse_cons.
Qed.

Lemma update_snoc (f : list V → list V) key a (m : list (K * list V)) :
  key ∉ m.*1 →
  JsMap.update f key (m ++ [(key, a)]) = m ++ [(key, f a)].
Proof.
  induction m as [|[k0 v0] m IH]; intros Hnot.
  - simpl. by rewrite decide_True.
  - rewrite fmap_cons in Hnot. apply not_elem_of_cons in Hnot as [Hne Hnot].
    simpl. rewrite decide_False by done. by rewrite IH.
Qed.

Lemma update_values_perm key v (m : list (K * list V)) :
  key ∈ m.*1 →
  mjoin (JsMap.update (λ arr, arr ++ [v]) key m).*2 ≡ₚ mjoin m.*2 ++ [v].
Proof.
  induction m as [|[k0 v0] m IH]; intros Hin.
  { by apply elem_of_nil in Hin. }
  cbn [JsMap.update]. destruct (decide (k0 = key)) as [->|Hne].
  - rewrite !fmap_cons. simpl. rewrite <- !app_assoc.
    apply Permutation_app_head, Permutation_app_comm.
  - rewrite fmap_cons in Hin. apply elem_of_cons in Hin as [?|Hin]; [done|].
    rewrite !fmap_cons. simpl. rewrite IH by done. by rewrite app_assoc.
Qed.

Lemma update_nonempty key v (m : list (K * list V)) :
  Forall (λ e, e.2 ≠ []) m →
  Forall (λ e, e.2 ≠ []) (JsMap.update (λ arr, arr ++ [v]) key m).
Proof.
  induction 1 as [|[k0 v0] m Hx Hm IH]; [constructor|].
  cbn [JsMap.update]. destruct (decide (k0 = key)).
  - constructor; [|done]. simpl. by destruct v0.
  - by constructor.
Qed.

Lemma group_step_values (m : list (K * list V)) obj :
  mjoin (group_step keySelector valueSelector m obj).*2 ≡ₚ
    mjoin m.*2 ++ [valueSelector obj] ∧
  (Forall (λ e, e.2 ≠ []) m →
   Forall (λ e, e.2 ≠ []) (group_step keySelector valueSelector m obj)).
Proof.
  unfold group_step.
  destruct (JsMap.has (keySelector obj) m) eqn:Hhas; simpl.
  - apply has_true_iff in Hhas. split.
    + by apply update_values_perm.
    + apply update_nonempty.
  - assert (keySelector obj ∉ m.*1) as Hnot.
    { intros Hin%has_true_iff. congruence. }
    unfold JsMap.set. rewrite Hhas, update_snoc by done. split.
    + by rewrite fmap_app, join_app.
    + intros Hm. apply Forall_app. split; [done|]. by repeat constructor.
Qed.

(** X9.  [group] holds an entry for a key exactly when some element of
    the array has that key, and the entry is the values of the elements
    with that key, in the order of the array.  So every element finds its
    value in the entry of its key, and an empty array gives an empty
    map. *)
Theorem group_lookup (array : list A) (k : K) :
  JsMap.get k (group array keySelector valueSelector) =
    (if decide (k ∈ keySelector <$> array)
     then Some (valueSelector <$> filter (λ obj, keySelector obj = k) array)
     else None) ∧
  (∀ obj, obj ∈ array →
     ∃ values,
       JsMap.get (keySelector obj) (group array keySelector valueSelector)
         = Some values ∧
       valueSelector obj ∈ values) ∧
  group [] keySelector valueSelector = [].
Proof.
  split_and!; [apply group_get| |done].
  intros obj Hobj. rewrite group_get.
  rewrite decide_True by (by apply list_elem_of_fmap_2).
  eexists. split; [done|].
  apply list_elem_of_fmap_2. by apply list_elem_of_filter.
Qed.

(** X10.  The keys of the map [group] returns are the keys of the
    elements, each once, in the order in which they first occur in the
    array (the keys of the array with every repetition after the first
    dropped). *)
Theorem group_keys_first_occurrence (array : list A) :
  (group array keySelector valueSelector).*1 =
    reverse (remove_dups (reverse (keySelector <$> array))) ∧
  NoDup (group array keySelector valueSelector).*1 ∧
  ∀ k, k ∈ (group array keySelector valueSelector).*1 ↔
       k ∈ keySelector <$> array.
Proof.
  rewrite group_keys. split_and!; [done| |].
  - rewrite reverse_Permutation. apply NoDup_remove_dups.
  - intros k. by rewrite elem_of_reverse, elem_of_remove_dups, elem_of_reverse.
Qed.

(** X11.  [group] loses and adds nothing: the values of all groups
    together are the values of the elements of the array, each as often
    as it occurs, and no group is empty. *)
Theorem group_partition (array : list A) :
  mjoin (group array keySelector valueSelector).*2 ≡ₚ valueSelector <$> array ∧
  Forall (λ e, e.2 ≠ []) (group array keySelector valueSelector) ∧
  length (mjoin (group array keySelector valueSelector).*2) = length array.
Proof.
  assert (mjoin (group array keySelector valueSelector).*2
            ≡ₚ valueSelector <$> array ∧
          Forall (λ e, e.2 ≠ []) (group array keySelector valueSelector))
    as [Hperm Hne].
  { induction array as [|obj array [IHp IHn]] using rev_ind.
    { split; [done | constructor]. }
    rewrite group_snoc.
    destruct (group_step_values (group array keySelector valueSelector) obj)
      as [Hp Hn].
    split; [|by apply Hn]. by rewrite Hp, IHp, fmap_app. }
  split_and!; [done..|]. by rewrite Hperm, length_fmap.
Qed.

End selectors.
End group_facts.

(** * Beyond the builder: makeWord *)

Section makeWord_facts.
Import MakeWord.

(** One write of [makeWord]: [fill(key, index, index + 1)] on an array of
    length 100 sets one position or none. *)
Lemma fill_position {A} (O : list (option A)) (key : A) (i : Z) :
  length O = 100 →
  fill O key i (i + 1) =
    from_option (λ n, <[n:=Some key]> O) O (position i).
Proof.
  intros Hlen. unfold fill, position, relative. rewrite Hlen.
  change (Z.of_nat 100) with 100%Z.
  destruct (decide (0 ≤ i < 100)%Z) as [Hi|Hi].
  { destruct (Z.ltb_spec i 0); [lia|]. destruct (Z.ltb_spec (i + 1) 0); [lia|].
    replace (Z.to_nat (Z.min (i + 1) 100) - Z.to_nat (Z.min i 100)) with 1
      by lia.
    replace (Z.to_nat (Z.min i 100)) with (Z.to_nat i) by lia. done. }
  destruct (decide (-100 ≤ i ≤ -2)%Z) as [Hi'|Hi'].
  { destruct (Z.ltb_spec i 0); [|lia]. destruct (Z.ltb_spec (i + 1) 0); [|lia].
    replace (Z.to_nat (Z.max (100 + (i + 1)) 0)
             - Z.to_nat (Z.max (100 + i) 0)) with 1 by lia.
    replace (Z.to_nat (Z.max (100 + i) 0)) with (Z.to_nat (100 + i)) by lia.
    done. }
  simpl.
  destruct (Z.ltb_spec i 0), (Z.ltb_spec (i + 1) 0);
    match goal with
    | |- foldl _ _ (seq _ ?n) = _ => replace n with 0 by lia
    end; done.
Qed.

Lemma position_lt i n : position i = Some n → n < 100.
Proof.
  unfold position. repeat case_decide; intros [= <-]; lia.
Qed.

Lemma fill_length {A} (O : list (option A)) (key : A) (i : Z) :
  length O = 100 → length (fill O key i (i + 1)) = 100.
Proof.
  intros Hlen. rewrite fill_position by done.
  destruct (position i); simpl; [by rewrite length_insert | done].
Qed.

Lemma makeWord_writes lettersObject :
  makeWord lettersObject =
    join (foldl (λ words w, fill words w.2 w.1 (w.1 + 1))
            (replicate 100 None) (writes lettersObject)).
Proof.
  unfold makeWord, writes. f_equal. generalize (replicate 100 (@None string)).
  induction lettersObject as [|[key value] lo IH]; intros words; [done|].
  rewrite bind_cons, foldl_app. cbn [foldl]. rewrite IH. f_equal.
  by rewrite foldl_fmap.
Qed.

Lemma writes_cells (ws : list (option string)) (l : list (Z * string)) n :
  length ws = 100 →
  length (foldl (λ words w, fill words w.2 w.1 (w.1 + 1)) ws l) = 100 ∧
  foldl (λ words w, fill words w.2 w.1 (w.1 + 1)) ws l !! n =
    match last (filter (λ w, position w.1 = Some n) l) with
    | Some w => Some (Some w.2)
    | None => ws !! n
    end.
Proof.
  intros Hlen. induction l as [|[i key] l [IHlen IH]] using rev_ind; [done|].
  rewrite foldl_snoc. cbn [fst snd]. split; [by apply fill_length|].
  rewrite fill_position, filter_app by done.
  destruct (decide (position i = Some n)) as [Hn|Hn].
  - rewrite filter_cons_True, filter_nil, last_snoc by done.
    rewrite Hn. simpl. apply list_lookup_insert_eq.
    rewrite IHlen. by eapply position_lt.
  - rewrite filter_cons_False, filter_nil, app_nil_r by done.
    rewrite <- IH. destruct (position i) as [n'|]; simpl; [|done].
    apply list_lookup_insert_ne. congruence.
Qed.

Lemma join_app l1 l2 : join (l1 ++ l2) = join l1 +:+ join l2.
Proof.
  induction l1 as [|w l1 IH]; [done|].
  change (default "" w +:+ join (l1 ++ l2)
          = (default "" w +:+ join l1) +:+ join l2).
  by rewrite IH, string_app_assoc.
Qed.

Lemma join_holes n : join (replicate n None) = "".
Proof. induction n as [|n IH]; [done|]. simpl. by rewrite IH. Qed.

Lemma join_Some (word : list string) :
  join (Some <$> word) = foldr String.append "" word.
Proof.
  induction word as [|w word IH]; [done|]. rewrite fmap_cons.
  change (join (Some w :: (Some <$> word)))
    with (w +:+ join (Some <$> word)).
  by rewrite IH.
Qed.

Lemma makeWord_cells lettersObject :
  makeWord lettersObject = join (letter_at lettersObject <$> seq 0 100).
Proof.
  rewrite makeWord_writes. f_equal. apply list_eq. intros n.
  pose proof (writes_cells (replicate 100 None) (writes lettersObject) n
                (length_replicate _ _)) as [Hlen Hn].
  destruct (decide (n < 100)) as [Hlt|Hge].
  - rewrite Hn, list_lookup_fmap, lookup_seq_lt by done.
    change (0 + n) with n. unfold letter_at.
    cbn [fmap option_fmap option_map].
    destruct (last _) as [w|]; [done|].
    by rewrite lookup_replicate_2.
  - rewrite !lookup_ge_None_2; [done|..].
    + rewrite length_fmap, length_seq. lia.
    + rewrite Hlen. lia.
Qed.

(** X12.  The word [makeWord] returns is, for the positions 0 to 99 in
    order, the key that was written last on the position, and nothing for
    a position no write lands on.  An index from 0 to 99 lands on
    itself, an index from -100 to -2 on 100 plus itself, and any other
    index nowhere.  So the word depends on the sequence of writes only,
    not on how the positions are spread over the entries, and an object
    without entries gives the empty word. *)
Theorem makeWord_positions (lettersObject : list (string * list Z)) :
  makeWord lettersObject = join (letter_at lettersObject <$> seq 0 100) ∧
  (∀ lettersObject',
     writes lettersObject' = writes lettersObject →
     makeWord lettersObject' = makeWord lettersObject) ∧
  makeWord [] = "".
Proof.
  split_and!; [apply makeWord_cells| |by vm_compute].
  intros lettersObject' Hwrites. rewrite !makeWord_cells.
  f_equal. apply list_fmap_ext. intros _ n _.
  unfold letter_at. by rewrite Hwrites.
Qed.

(** X13.  One write of [makeWord], [words.fill(key, index, index + 1)] on
    the array of 100 positions, sets the position the index lands on and
    no other, and changes nothing when the index lands nowhere; the
    array keeps its length. *)
Theorem fill_lands (O : list (option string)) (key : string) (i : Z)
    (Hlen : length O = 100) :
  fill O key i (i + 1) =
    match position i with
    | Some n => <[n:=Some key]> O
    | None => O
    end ∧
  length (fill O key i (i + 1)) = 100 ∧
  position i =
    (if decide (0 ≤ i < 100)%Z then Some (Z.to_nat i)
     else if decide (-100 ≤ i ≤ -2)%Z then Some (Z.to_nat (100 + i))
     else None).
Proof.
  split_and!; [|by apply fill_length|done].
  rewrite fill_position by done. by destruct (position i).
Qed.

Lemma fill_lands_witness :
  length (replicate 100 (@None string)) = 100 ∧
  fill (replicate 100 None) "a" (-2) (-2 + 1) =
    <[98:=Some "a"]> (replicate 100 None).
Proof.
  split; [reflexivity|].
  exact (proj1 (fill_lands (replicate 100 None) "a" (-2) eq_refl)).
Defined.

Lemma position_nonneg i n : (0 ≤ i)%Z → position i = Some n → n = Z.to_nat i.
Proof.
  intros Hi. unfold position. repeat case_decide; intros [= <-]; lia.
Qed.

Lemma position_of_nat n : n < 100 → position (Z.of_nat n) = Some n.
Proof.
  intros Hn. unfold position. rewrite decide_True by lia. f_equal. lia.
Qed.

Section word.
Variables (lettersObject : list (string * list Z)) (word : list string).
Hypothesis Hwrites :
  Forall (λ w, (0 ≤ w.1)%Z ∧ word !! Z.to_nat w.1 = Some w.2)
    (writes lettersObject).
Hypothesis Hcover :
  Forall (λ w, w ∈ writes lettersObject)
    (imap (λ n key, (Z.of_nat n, key)) word).

Lemma letter_at_word n : n < 100 → letter_at lettersObject n = word !! n.
Proof.
  intros Hn. unfold letter_at.
  destruct (last (filter _ (writes lettersObject))) as [[i key]|] eqn:Hlast.
  - apply last_Some_elem_of, list_elem_of_filter in Hlast as [Hpos Hin].
    rewrite Forall_forall in Hwrites.
    destruct (Hwrites _ Hin) as [Hi Hkey]. simpl in *.
    by rewrite (position_nonneg _ _ Hi Hpos).
  - apply last_None in Hlast. simpl.
    destruct (word !! n) as [key|] eqn:Hkey; [|done].
    rewrite Forall_forall in Hcover.
    assert ((Z.of_nat n, key) ∈ writes lettersObject) as Hin.
    { apply Hcover. by apply (elem_of_lookup_imap_2 (λ n key, (Z.of_nat n, key))). }
    assert ((Z.of_nat n, key)
              ∈ filter (λ w, position w.1 = Some n) (writes lettersObject))
      as Hfilter.
    { apply list_elem_of_filter. split; [by apply position_of_nat | done]. }
    rewrite Hlast in Hfilter. by apply elem_of_nil in Hfilter.
Qed.

End word.

(** X14.  When the positions listed under the keys are exactly the
    positions of a word of at most 100 letters (every listed position is
    a position of the word holding that key, and every position of the
    word is listed under its letter), [makeWord] returns the word. *)
Theorem makeWord_word (lettersObject : list (string * list Z))
    (word : list string)
    (Hlen : length word ≤ 100)
    (Hwrites :
       Forall (λ w, (0 ≤ w.1)%Z ∧ word !! Z.to_nat w.1 = Some w.2)
         (writes lettersObject))
    (Hcover :
       Forall (λ w, w ∈ writes lettersObject)
         (imap (λ n key, (Z.of_nat n, key)) word)) :
  makeWord lettersObject = foldr String.append "" word.
Proof.
  rewrite makeWord_cells.
  assert (letter_at lettersObject <$> seq 0 100 =
          (Some <$> word) ++ replicate (100 - length word) None) as ->.
  { apply list_eq. intros n. destruct (decide (n < 100)) as [Hn|Hn].
    - rewrite list_lookup_fmap, lookup_seq_lt by done.
      change (0 + n) with n. cbn [fmap option_fmap option_map].
      rewrite (letter_at_word _ word Hwrites Hcover) by done.
      destruct (word !! n) as [key|] eqn:Hkey.
      + rewrite lookup_app_l
          by (rewrite length_fmap; by eapply lookup_lt_Some).
        by rewrite list_lookup_fmap, Hkey.
      + apply lookup_ge_None in Hkey.
        rewrite lookup_app_r by (by rewrite length_fmap).
        rewrite lookup_replicate_2; [done|]. rewrite length_fmap. lia.
    - rewrite !lookup_ge_None_2; [done|..].
      + rewrite length_app, length_fmap, length_replicate. lia.
      + rewrite length_fmap, length_seq. lia. }
  by rewrite join_app, join_Some, join_holes, string_app_nil_r.
Qed.

Lemma makeWord_word_witness :
  makeWord [("a", [0; 1]%Z); ("b", [2; 3]%Z); ("c", [4; 5]%Z)] = "aabbcc".
Proof.
  apply (makeWord_word [("a", [0; 1]%Z); ("b", [2; 3]%Z); ("c", [4; 5]%Z)]
           ["a"; "a"; "b"; "b"; "c"; "c"]).
  - simpl. lia.
  - by apply (bool_decide_unpack _).
  - by apply (bool_decide_unpack _).
Defined.

Lemma writes_filter lettersObject :
  writes ((λ e, (e.1, filter (λ i, is_Some (position i)) e.2))
            <$> lettersObject) =
    filter (λ w, is_Some (position w.1)) (writes lettersObject).
Proof.
  unfold writes. induction lettersObject as [|[key value] lo IH]; [done|].
  rewrite fmap_cons, !bind_cons, filter_app, IH. f_equal. cbn [fst snd].
  clear IH. induction value as [|i value IH]; [done|].
  rewrite fmap_cons, !filter_cons. cbn [fst].
  destruct (decide (is_Some (position i))); by rewrite ?fmap_cons, IH.
Qed.

(** X15.  Positions no write lands on (100 and above, -1, below -100)
    are passed over without an error: the word is the same as without
    them. *)
Theorem makeWord_ignores_out_of_range
    (lettersObject : list (string * list Z)) :
  makeWord ((λ e, (e.1, filter (λ i, is_Some (position i)) e.2))
              <$> lettersObject) =
    makeWord lettersObject.
Proof.
  rewrite !makeWord_cells. f_equal. apply list_fmap_ext. intros _ n _.
  unfold letter_at. rewrite writes_filter, list_filter_filter.
  do 2 f_equal. apply list_filter_iff. intros [i key]. simpl.
  split; [by intros [? _] | intros Hn; split; [done | by rewrite Hn]].
Qed.

Lemma string_length_app (s1 s2 : string) :
  String.length (s1 +:+ s2) = String.length s1 + String.length s2.
Proof.
  induction s1 as [|a s1 IH]; [done|].
  change (S (String.length (s1 +:+ s2))
          = S (String.length s1 + String.length s2)).
  by rewrite IH.
Qed.

Lemma join_length (cells : list (option string)) :
  Forall (λ c, String.length (default "" c) ≤ 1) cells →
  String.length (join cells) ≤ length cells.
Proof.
  induction 1 as [|c cells Hc _ IH]; [done|].
  change (join (c :: cells)) with (default "" c +:+ join cells).
  rewrite string_length_app. simpl. lia.
Qed.

Lemma elem_of_writes lettersObject i key :
  (i, key) ∈ writes lettersObject ↔
    ∃ value, (key, value) ∈ lettersObject ∧ i ∈ value.
Proof.
  unfold writes. rewrite list_elem_of_bind. split.
  - intros ([key' value] & Hin & Hlo).
    apply list_elem_of_fmap in Hin as (i' & [= -> ->] & Hi). eauto.
  - intros (value & Hlo & Hi). exists (key, value). split; [|done].
    apply list_elem_of_fmap. eauto.
Qed.

(** X16.  The array [makeWord] fills has 100 positions: with keys of one
    character at most, the word returned has at most 100 characters,
    however many positions are listed. *)
Theorem makeWord_length (lettersObject : list (string * list Z))
    (Hkeys : Forall (λ e, String.length e.1 ≤ 1) lettersObject) :
  String.length (makeWord lettersObject) ≤ 100.
Proof.
  rewrite makeWord_cells.
  etransitivity; [apply join_length|by rewrite length_fmap, length_seq].
  apply Forall_fmap, Forall_forall. intros n _. simpl.
  unfold letter_at.
  destruct (last _) as [[i key]|] eqn:Hlast; simpl; [|lia].
  apply last_Some_elem_of, list_elem_of_filter in Hlast as [_ Hin].
  apply elem_of_writes in Hin as (value & Hlo & _).
  rewrite Forall_forall in Hkeys. apply (Hkeys _ Hlo).
Qed.

Lemma makeWord_length_witness :
  Forall (λ e : string * list Z, String.length e.1 ≤ 1)
    [("a", [0; 1; 250]%Z); ("b", [2; 99; 100]%Z)] ∧
  String.length (makeWord [("a", [0; 1; 250]%Z); ("b", [2; 99; 100]%Z)])
    ≤ 100.
Proof.
  assert (Forall (λ e : string * list Z, String.length e.1 ≤ 1)
            [("a", [0; 1; 250]%Z); ("b", [2; 99; 100]%Z)]) as Hkeys
    by (by apply (bool_decide_unpack _)).
  split; [exact Hkeys|]. exact (makeWord_length _ Hkeys).
Defined.

End makeWord_facts.

(** * Beyond the claims: the builder *)

Section builder_extras.
Import CssSelectorBuilder History Store Client.

Lemma rank_le_5 m : rank m ≤ 5.
Proof. destruct m; vm_compute; lia. Qed.

Lemma lastRank_le_5 log : lastRank log ≤ 5.
Proof.
  unfold lastRank. destruct (last log) as [c|]; simpl; [apply rank_le_5 | lia].
Qed.

(** X17.  A chain of fragment calls started at the facade returns a
    string exactly when its calls respect the order of the parts and the
    singleton constraint; the same holds for a chain on a new instance. *)
Theorem build_returns_iff (first : methodName * string)
    (rest : list (methodName * string)) (h : heap) :
  ((∃ s h', build first rest h = Some (Normal s, h')) ↔
     respects (first :: rest)) ∧
  ((∃ this', CssSelectorBuilder.chain (first :: rest) constructor
               = (Normal tt, this')) ↔
     respects (first :: rest)).
Proof.
  assert ((∃ this', CssSelectorBuilder.chain (first :: rest) constructor
                      = (Normal tt, this')) ↔ respects (first :: rest))
    as Hchain.
  { split.
    - intros [this' Hthis']. change constructor with (state_of "" []) in Hthis'.
      by apply chain_returned_respects in Hthis' as [_ ?].
    - intros Hcalls. change constructor with (state_of "" []).
      eexists. by apply chain_state_of. }
  split; [|done]. rewrite <- Hchain. clear Hchain.
  destruct first as [m value]. unfold build, bind. rewrite facade_append.
  cbn [fst snd CssSelectorBuilder.chain]. unfold CssSelectorBuilder.bind.
  destruct (append m value constructor) as [[[]|e] this1]; simpl.
  - assert ((h ++ [this1]) !! length h = Some this1) as Hb
      by (by rewrite lookup_app_r, Nat.sub_diag).
    rewrite (store_chain _ _ _ _ Hb).
    destruct (CssSelectorBuilder.chain rest this1) as [[[]|e] this2]; simpl.
    + erewrite call_stringify; last first.
      { apply list_lookup_insert_eq. rewrite length_app. simpl. lia. }
      split; eauto.
    + split; [by intros (? & ? & [=]) | by intros (? & [=])].
  - split; [by intros (? & ? & [=]) | by intros (? & [=])].
Qed.

(** X18.  A chain on a new instance throws at its first call that breaks
    the order or repeats a singleton part: the ordering error when the
    rank of that call is below the rank of the call before it, the
    duplicate error otherwise.  The calls after it are not made, and the
    instance holds what the calls before it have built. *)
Theorem chain_first_failure (before : list (methodName * string))
    (m : methodName) (value : string) (after : list (methodName * string))
    (Hbefore : respects before)
    (Hcall : ¬ respects (before ++ [(m, value)])) :
  CssSelectorBuilder.chain (before ++ (m, value) :: after) constructor =
    (Thrown (if rank m <? lastRank before
             then OrderingError else DuplicateError),
     state_of "" before).
Proof.
  rewrite chain_app. change constructor with (state_of "" []).
  rewrite (chain_state_of "" before Hbefore).
  cbn [CssSelectorBuilder.chain]. unfold CssSelectorBuilder.bind.
  rewrite (append_history _ "" before) by (by apply state_of_history).
  destruct (Nat.ltb_spec (rank m) (lastRank before)) as [|Hle]; [done|].
  destruct (negb (repeatable m) && flag m before) eqn:Hdup; [done|].
  exfalso. apply Hcall, respects_snoc. split_and!; [done..|].
  intros Hrep. by rewrite Hrep in Hdup.
Qed.

Lemma chain_first_failure_witness :
  CssSelectorBuilder.chain
    [(Element, "div"); (Id, "main"); (Element, "p"); (Class, "x")]
    constructor =
  (Thrown OrderingError, state_of "" [(Element, "div"); (Id, "main")]).
Proof.
  apply (chain_first_failure [(Element, "div"); (Id, "main")]
           Element "p" [(Class, "x")]).
  - by apply (bool_decide_unpack _).
  - by apply (bool_decide_unpack _).
Defined.

(** X19.  What holds of an instance in every state it can be in: its
    text is the text it started from followed by the texts of the calls
    that returned, in call order; those calls respect the order and the
    singleton constraint; [previousOrder] is at most 5; the second cell
    of every array is the rank the constructor gave it; a set flag
    belongs to element, id or pseudo-element and to a rank no higher than
    [previousOrder]; the flags of class, attribute, pseudo-class and
    combinator are never set. *)
Theorem history_invariant this base log (Hthis : history this base log) :
  result this = base +:+ text log ∧
  respects log ∧
  previousOrder this ≤ 5 ∧
  (∀ m, (used m this).2 = rank m) ∧
  (∀ m, (used m this).1 = true →
        m ∈ [Element; Id; PseudoElement] ∧ m ∈ log.*1 ∧
        rank m ≤ previousOrder this) ∧
  classUsed this = (false, 2) ∧ attrUsed this = (false, 3) ∧
  pseudoClassUsed this = (false, 4) ∧ combinatorUsed this = (false, 6).
Proof.
  apply history_state_of in Hthis as [-> Hlog].
  split_and!; try done.
  - apply lastRank_le_5.
  - by intros [].
  - intros m Hm. rewrite used_state_of in Hm. simpl in Hm.
    apply andb_true_iff in Hm as [Hrep Hflag].
    split_and!.
    + apply singleton_not_repeatable. by destruct (repeatable m).
    + by apply bool_decide_eq_true in Hflag.
    + by apply flag_le_last.
Qed.

Lemma history_invariant_witness :
  history (state_of "" [(Element, "div"); (Class, "a")]) ""
    [(Element, "div"); (Class, "a")] ∧
  result (state_of "" [(Element, "div"); (Class, "a")]) = "div.a" ∧
  previousOrder (state_of "" [(Element, "div"); (Class, "a")]) ≤ 5.
Proof.
  assert (history (state_of "" [(Element, "div"); (Class, "a")]) ""
            [(Element, "div"); (Class, "a")]) as Hthis.
  { apply state_of_history. by apply (bool_decide_unpack _). }
  split; [exact Hthis|].
  destruct (history_invariant _ _ _ Hthis) as (Hresult & _ & Hle & _).
  split; [exact Hresult | exact Hle].
Defined.

(** X20.  In a store whose instances are all in states they can be in,
    every fragment call through a reference, every [stringify] and every
    [combine] leaves a store of that kind, and a fragment call that
    throws leaves the whole store as it was. *)
Theorem store_ok_kept (h : heap) (Hh : store_ok h) :
  (∀ l m value x h',
     call l (append m value) h = Some (x, h') →
     store_ok h' ∧ (∀ e, x = Thrown e → h' = h)) ∧
  (∀ l x h', call l stringify h = Some (x, h') → store_ok h') ∧
  (∀ x h', new h = Some (x, h') → store_ok h') ∧
  (∀ this l1 c l2 x h',
     is_Some (h !! l1) → is_Some (h !! l2) →
     combine this l1 c l2 h = Some (x, h') → store_ok h').
Proof.
  split_and!.
  - intros l m value x h' Hcall. split; [by eapply store_ok_append|].
    intros e ->. by eapply store_thrown_keeps_heap.
  - intros l x h' Hcall. by eapply store_ok_stringify.
  - intros x h' Hnew. by eapply store_ok_new.
  - intros this l1 c l2 x h' [b1 H1] [b2 H2] Hcombine.
    exact (store_ok_combine _ _ _ _ _ _ _ _ _ Hh H1 H2 Hcombine).
Qed.

Lemma store_ok_kept_witness :
  store_ok [state_of "" [(Element, "div")]] ∧
  ∀ x h',
    call 0 (append Element "p") [state_of "" [(Element, "div")]]
      = Some (x, h') →
    store_ok h' ∧ (∀ e, x = Thrown e → h' = [state_of "" [(Element, "div")]]).
Proof.
  assert (store_ok [state_of "" [(Element, "div")]]) as Hh.
  { apply Forall_singleton. exists "", [(Element, "div")].
    apply state_of_history. by apply (bool_decide_unpack _). }
  split; [exact Hh|].
  exact (proj1 (store_ok_kept _ Hh) 0 Element "p").
Defined.

End builder_extras.
